(** * Chrome disk-cache reader: [fanficfare/chromagnon/cacheParse.py]

    A shallow embedding of [parse], [ChromeCache.__init__] and
    [ChromeCache.get_cached_file], and the properties of the hash-table walk,
    the URL index and the body accessor.

    Conventions of the embedding.
    - Python [int] is [Z]; the words of the index file are the values
      [struct.unpack('I', ...)] yields.
    - Python [bytes] is [string] (a sequence of 8-bit characters).  Python
      [str] is [string] as well, read as the code points below 256; on that
      domain [\d] of module [re] is exactly the ten ASCII digits.
    - A Python exception is a value of [pyexn]; a computation that may raise
      or loop returns an [outcome].
    - The two [while] loops take a [fuel]: the number of iterations the
      evaluation is allowed.  [OutOfFuel] says that the loop was still
      running after that many iterations; it is not a value the program
      returns. *)

From Stdlib Require Import ZArith Lia Ascii String List.
From stdpp Require Import gmap strings list fin_maps.

Local Open Scope string_scope.
Local Open Scope list_scope.
Local Open Scope Z_scope.

Abbreviation bytes := string (only parsing).

(** ** Exceptions and outcomes *)

Inductive pyexn : Type :=
| PyExn (cls : string).

Inductive outcome (A : Type) : Type :=
| Ret (a : A)
| Raise (e : pyexn)
| OutOfFuel.

Arguments Ret {A} a.
Arguments Raise {A} e.
Arguments OutOfFuel {A}.

#[global] Instance outcome_ret : MRet outcome := @Ret.

#[global] Instance outcome_bind : MBind outcome :=
  fun A B (f : A -> outcome B) (m : outcome A) =>
    match m with
    | Ret a => f a
    | Raise e => Raise e
    | OutOfFuel => OutOfFuel
    end.

(** A call that returns or raises, and never loops. *)
Definition call {A : Type} (r : pyexn + A) : outcome A :=
  match r with
  | inl e => Raise e
  | inr a => Ret a
  end.

(** ** The decoded records *)

Module CacheData.

(** [CacheData.HTTP_HEADER] and [CacheData.UNKNOWN]. *)
Inductive kind : Type := HTTP_HEADER | UNKNOWN.

#[global] Instance kind_eq_dec : EqDecision kind.
Proof. solve_decision. Defined.

(** [type] is the attribute [type]; [data] is the result of the method
    [data()], which reads the block file or the separate file and may
    raise. *)
Record t : Type := mk
  { type : kind;
    data : pyexn + bytes }.

End CacheData.

Module CacheEntry.

(** The attributes of a [CacheEntry] that [cacheParse.py] reads.
    [httpHeader] is [None] or the [headers] dictionary of the header
    stream; [keyToStr] is the result of the method [keyToStr()]. *)
Record t : Type := mk
  { hash : Z;
    next : Z;
    keyToStr : string;
    data : list CacheData.t;
    httpHeader : option (gmap string string) }.

End CacheEntry.

(** ** The cache directory

    [path] as [parse] sees it: the two header fields [CacheBlock] exposes,
    the index file as a sequence of 32-bit words from its first byte, and
    [CacheEntry(CacheAddress(raw, path=path))] as a function of [raw]. *)
Record snapshot : Type := mkSnapshot
  { block_type : Z;
    tableSize : Z;
    index_file : list Z;
    entry_at : Z -> pyexn + CacheEntry.t }.

(** The same index file over block files that decode as [f] says. *)
Definition with_entry_at (dir : snapshot) (f : Z -> pyexn + CacheEntry.t)
    : snapshot :=
  {| block_type := block_type dir; tableSize := tableSize dir;
     index_file := index_file dir; entry_at := f |}.

(** What [parse] leaves behind: the list [cache] and the lines written to
    [sys.stderr], each line standing for ["%s is not in the cache" % url]
    with [url] the encoded bytes. *)
Record pstate : Type := mkPstate
  { cache : list CacheEntry.t;
    stderr : list bytes }.

(** [bytes(url, 'utf8')] on code points below 256. *)
Fixpoint utf8 (s : string) : bytes :=
  match s with
  | EmptyString => EmptyString
  | String c r =>
      let n := N_of_ascii c in
      if (n <? 128)%N then String c (utf8 r)
      else String (ascii_of_N (192 + n / 64))
             (String (ascii_of_N (128 + n mod 64)) (utf8 r))
  end.

(** [hash & (cacheBlock.tableSize - 1)] *)
Definition bucket_index (hash tableSize : Z) : Z :=
  Z.land hash (tableSize - 1).

(** [addr & 0x80000000 == 0] *)
Definition uninitialized (addr : Z) : bool :=
  Z.land addr 0x80000000 =? 0.

Section Parse.

(** [CacheBlock.INDEX] and [SuperFastHash.superFastHash] are defined in
    modules of the package that [cacheParse.py] imports. *)
Variable INDEX : Z.
Variable superFastHash : bytes -> Z.

Variable dir : snapshot.

Abbreviation decode := (entry_at dir).

(** [struct.unpack('I', index.read(4))[0]] with the file positioned at
    byte [92*4 + key*4]: a negative position makes [seek] raise, a read
    past the end of the file makes [unpack] raise. *)
Definition read_word (key : Z) : outcome Z :=
  if 92 + key <? 0 then Raise (PyExn "OSError")
  else match index_file dir !! Z.to_nat (92 + key) with
       | Some raw => Ret raw
       | None => Raise (PyExn "struct.error")
       end.

(** Lines 110-112:
    [while entry.next != 0: cache.append(entry); entry = CacheEntry(...)] *)
Fixpoint bucket_loop (fuel : nat) (entry : CacheEntry.t)
    (cache : list CacheEntry.t) : outcome (CacheEntry.t * list CacheEntry.t) :=
  if CacheEntry.next entry =? 0 then Ret (entry, cache)
  else match fuel with
       | O => OutOfFuel
       | S fuel' =>
           entry' ← call (decode (CacheEntry.next entry));
           bucket_loop fuel' entry' (cache ++ [entry])
       end.

(** Lines 104-113: the body of [for key in range(cacheBlock.tableSize)];
    the reads are sequential, so iteration [key] reads word [92 + key]. *)
Definition enumerate_bucket (fuel : nat) (cache : list CacheEntry.t)
    (key : nat) : outcome (list CacheEntry.t) :=
  raw ← read_word (Z.of_nat key);
  if negb (raw =? 0) then
    entry ← call (decode raw);
    '(entry, cache) ← bucket_loop fuel entry cache;
    Ret (cache ++ [entry])
  else Ret cache.

(** A [for] loop whose body may raise. *)
Fixpoint for_each {A B : Type} (body : B -> A -> outcome B) (xs : list A)
    (acc : B) : outcome B :=
  match xs with
  | [] => Ret acc
  | x :: xs' => acc' ← body acc x; for_each body xs' acc'
  end.

(** Lines 131-132:
    [while entry.hash != hash and entry.next != 0: entry = CacheEntry(...)] *)
Fixpoint chain_loop (fuel : nat) (entry : CacheEntry.t) (hash : Z)
    : outcome CacheEntry.t :=
  if negb (CacheEntry.hash entry =? hash)
     && negb (CacheEntry.next entry =? 0) then
    match fuel with
    | O => OutOfFuel
    | S fuel' =>
        entry' ← call (decode (CacheEntry.next entry));
        chain_loop fuel' entry' hash
    end
  else Ret entry.

(** Lines 117-134: the body of [for url in urls]. *)
Definition lookup_url (fuel : nat) (st : pstate) (url : string)
    : outcome pstate :=
  let url := utf8 url in
  let hash := superFastHash url in
  let key := bucket_index hash (tableSize dir) in
  addr ← read_word key;
  if uninitialized addr then
    Ret {| cache := cache st; stderr := stderr st ++ [url] |}
  else
    entry ← call (decode addr);
    entry ← chain_loop fuel entry hash;
    if CacheEntry.hash entry =? hash then
      Ret {| cache := cache st ++ [entry]; stderr := stderr st |}
    else Ret st.

(** [range(n)] *)
Definition range (n : Z) : list nat := seq 0 (Z.to_nat n).

(** [parse(path, urls)].  The result carries the returned list and what
    was printed; opening the index file is taken to succeed. *)
Definition parse (fuel : nat) (urls : option (list string)) : outcome pstate :=
  if negb (block_type dir =? INDEX) then Raise (PyExn "Exception")
  else match urls with
       | None =>
           cache ← for_each (enumerate_bucket fuel) (range (tableSize dir)) [];
           Ret {| cache := cache; stderr := [] |}
       | Some urls =>
           for_each (lookup_url fuel) urls {| cache := []; stderr := [] |}
       end.

End Parse.

(** ** The URL index of [ChromeCache] *)

(** ['fanfiction.net' in key], as [contains "fanfiction.net" key]. *)
Fixpoint contains (needle hay : string) : bool :=
  if String.prefix needle hay then true
  else match hay with
       | EmptyString => false
       | String _ hay' => contains needle hay'
       end.

Module Re.

(** The pieces of the pattern
    [^(https://www.fanfiction.net/s/\d+/\d+/).+$]
    as matchers that return what follows the matched text.  No flag is
    given, so [.] is any character but a newline, [^] is the start of
    the string and [$] is its end or the position before a newline that
    ends it. *)

Definition is_digit (c : ascii) : bool :=
  let n := N_of_ascii c in ((48 <=? n) && (n <=? 57))%N.

Definition is_newline (c : ascii) : bool := Ascii.eqb c "010"%char.

(** A run of literal characters. *)
Fixpoint literal (p s : string) : option string :=
  match p with
  | EmptyString => Some s
  | String a p' =>
      match s with
      | String b s' => if Ascii.eqb a b then literal p' s' else None
      | EmptyString => None
      end
  end.

(** [.] *)
Definition dot (s : string) : option string :=
  match s with
  | String c s' => if is_newline c then None else Some s'
  | EmptyString => None
  end.

(** [\d*], greedy. *)
Fixpoint digits (s : string) : string :=
  match s with
  | String c s' => if is_digit c then digits s' else s
  | EmptyString => s
  end.

(** [\d+]: the digits are followed by a literal [/] in the pattern, so
    only the longest run can lead to a match. *)
Definition digits1 (s : string) : option string :=
  match s with
  | String c s' => if is_digit c then Some (digits s') else None
  | EmptyString => None
  end.

(** Group 1, from the start of the string: the text of the group and what
    follows it. *)
Definition group1 (key : string) : option (string * string) :=
  s ← literal "https://www" key;
  s ← dot s;
  s ← literal "fanfiction" s;
  s ← dot s;
  s ← literal "net/s/" s;
  s ← digits1 s;
  s ← literal "/" s;
  s ← digits1 s;
  s ← literal "/" s;
  Some (substring 0 (String.length key - String.length s) key, s).

(** [.*$]: what is left of the string after the match. *)
Fixpoint dots_end (s : string) : option string :=
  match s with
  | EmptyString => Some EmptyString
  | String c s' =>
      if is_newline c then
        match s' with
        | EmptyString => Some s
        | String _ _ => None
        end
      else dots_end s'
  end.

(** [.+$] *)
Definition dots1_end (s : string) : option string :=
  s' ← dot s; dots_end s'.

(** [re.sub(r'^(https://www.fanfiction.net/s/\d+/\d+/).+$', r'\1', key)]:
    the pattern can match at position 0 only; the match is replaced by
    group 1 and the unmatched end of the string is kept. *)
Definition sub_story (key : string) : string :=
  match group1 key with
  | Some (g, s) =>
      match dots1_end s with
      | Some tail => g +:+ tail
      | None => key
      end
  | None => key
  end.

End Re.

(** The body of the loop of [ChromeCache.__init__], lines 144-150. *)
Definition index_entry (hash_cache : gmap string CacheEntry.t)
    (entry : CacheEntry.t) : gmap string CacheEntry.t :=
  let key := CacheEntry.keyToStr entry in
  if negb (contains "fanfiction.net" key) then hash_cache
  else
    let hash_cache := <[key := entry]> hash_cache in
    let normkey := Re.sub_story key in
    <[normkey := entry]> hash_cache.

(** [for entry in self.cache: ...] starting from [self.hash_cache = {}]. *)
Definition build_hash_cache (cache : list CacheEntry.t)
    : gmap string CacheEntry.t :=
  fold_left index_entry cache ∅.

Module ChromeCache.

Record t : Type := mk
  { cache : list CacheEntry.t;
    hash_cache : gmap string CacheEntry.t }.

(** [ChromeCache.__init__(self, path)] *)
Definition init (INDEX : Z) (superFastHash : bytes -> Z) (dir : snapshot)
    (fuel : nat) : outcome t :=
  '(mkPstate parsed _) ← parse INDEX superFastHash dir fuel None;
  Ret {| cache := parsed; hash_cache := build_hash_cache parsed |}.

End ChromeCache.

(** ** The body accessor *)

(** What a call writes to [sys.stdout]: the line ["time:%s" % t] of
    [do_cprofile]. *)
Inductive printed : Type := time_line.

Section Body.

(** [gzip.decompress] and the Brotli decoder that was imported
    ([brotli.decompress], or [brotlidec] of [brotlipython]). *)
Variable gzip_decompress : bytes -> pyexn + bytes.
Variable brotli : bytes -> pyexn + bytes.

(** [brotli_decompress], decorated with [do_cprofile]: the [finally]
    clause prints the time whether the decoder returns or raises. *)
Definition brotli_decompress (inbuf : bytes) : list printed * (pyexn + bytes) :=
  ([time_line], brotli inbuf).

(** Lines 162-167. *)
Definition transport_decode (entry : CacheEntry.t) (data : bytes)
    : list printed * (pyexn + bytes) :=
  match CacheEntry.httpHeader entry with
  | Some headers =>
      match headers !! "content-encoding" with
      | Some encoding =>
          if String.eqb encoding "gzip" then ([], gzip_decompress data)
          else if String.eqb encoding "br" then brotli_decompress data
          else ([], inr data)
      | None => ([], inr data)
      end
  | None => ([], inr data)
  end.

(** Lines 156-168: [for i in range(len(entry.data))], returning at the
    first stream of type [UNKNOWN]. *)
Fixpoint first_unknown (entry : CacheEntry.t) (streams : list CacheData.t)
    : list printed * (pyexn + option bytes) :=
  match streams with
  | [] => ([], inr None)
  | d :: streams' =>
      if decide (CacheData.type d = CacheData.UNKNOWN) then
        match CacheData.data d with
        | inl e => ([], inl e)
        | inr data =>
            match transport_decode entry data with
            | (out, inl e) => (out, inl e)
            | (out, inr data) => (out, inr (Some data))
            end
        end
      else first_unknown entry streams'
  end.

(** [ChromeCache.get_cached_file(self, url)]: what is printed, and the
    exception raised or the value returned ([None] or the bytes). *)
Definition get_cached_file (self : ChromeCache.t) (url : string)
    : list printed * (pyexn + option bytes) :=
  match ChromeCache.hash_cache self !! url with
  | Some entry => first_unknown entry (CacheEntry.data entry)
  | None => ([], inr None)
  end.

End Body.

(** [body_stream entry d raw]: [d] is the first stream of [entry] whose
    type is [UNKNOWN], and its [data()] returns [raw]. *)
Definition body_stream (entry : CacheEntry.t) (d : CacheData.t) (raw : bytes)
    : Prop :=
  exists before after,
    CacheEntry.data entry = before ++ d :: after /\
    Forall (fun x => CacheData.type x <> CacheData.UNKNOWN) before /\
    CacheData.type d = CacheData.UNKNOWN /\
    CacheData.data d = inr raw.

(** The value of the header [content-encoding], when the entry has a
    header stream and the header is in it. *)
Definition content_encoding (entry : CacheEntry.t) : option string :=
  headers ← CacheEntry.httpHeader entry; headers !! "content-encoding".

(** ** Collision chains, as the index and the block files describe them *)

Section Chains.

Variable dir : snapshot.

(** [Path e pre e']: following [next] from [e] passes the entries [pre]
    ([e] first) and arrives at [e']; every entry of [pre] has a nonzero
    [next] that decodes to the entry after it. *)
Inductive Path : CacheEntry.t -> list CacheEntry.t -> CacheEntry.t -> Prop :=
| Path_here e : Path e [] e
| Path_hop e e1 pre e' :
    CacheEntry.next e <> 0 ->
    entry_at dir (CacheEntry.next e) = inr e1 ->
    Path e1 pre e' ->
    Path e (e :: pre) e'.

(** [Chain raw es]: [es] is the chain of the bucket whose head token is
    [raw]: the head entry, then each successor, up to the entry whose
    [next] is 0. *)
Definition Chain (raw : Z) (es : list CacheEntry.t) : Prop :=
  exists e pre last,
    entry_at dir raw = inr e /\ Path e pre last /\
    CacheEntry.next last = 0 /\ es = pre ++ [last].

(** What a bucket holds: nothing under a zero head token, its chain
    otherwise. *)
Definition Bucket (raw : Z) (es : list CacheEntry.t) : Prop :=
  if raw =? 0 then es = [] else Chain raw es.

(** [Broken raw err]: decoding the head [raw], or a successor on its
    chain, raises [err]; [hops] successors decode before that. *)
Definition Broken (raw : Z) (hops : nat) (err : pyexn) : Prop :=
  (entry_at dir raw = inl err /\ hops = O) \/
  exists e pre last,
    entry_at dir raw = inr e /\ Path e pre last /\
    CacheEntry.next last <> 0 /\
    entry_at dir (CacheEntry.next last) = inl err /\
    hops = S (length pre).

(** The index table holds the head tokens [heads] from bucket [i] on. *)
Definition table_from (i : nat) (heads : list Z) : Prop :=
  forall k raw, heads !! k = Some raw ->
    index_file dir !! (92 + (i + k))%nat = Some raw.

End Chains.

(** ** Example caches *)

Module Fixture.

Definition entry (hash next : Z) (key : string) : CacheEntry.t :=
  {| CacheEntry.hash := hash; CacheEntry.next := next;
     CacheEntry.keyToStr := key; CacheEntry.data := [];
     CacheEntry.httpHeader := None |}.

(** The 92 words of the index header, which [parse] skips. *)
Definition header : list Z := repeat 0 92.

Definition INDEX : Z := 0xC103CAC3.

(** A hash for the examples, in the place of [superFastHash]. *)
Definition hash_of (url : bytes) : Z :=
  if String.eqb url "http://a/" then 0x11
  else if String.eqb url "http://b/" then 0x22
  else 0.

Definition e1 : CacheEntry.t := entry 0x12 0x90000002 "http://x/".
Definition e2 : CacheEntry.t := entry 0x22 0x90000003 "http://b/".
Definition e3 : CacheEntry.t := entry 0x32 0 "http://y/".

Definition io_error : pyexn := PyExn "IOError".

Definition blocks (raw : Z) : pyexn + CacheEntry.t :=
  if raw =? 0x90000001 then inr e1
  else if raw =? 0x90000002 then inr e2
  else if raw =? 0x90000003 then inr e3
  else inl io_error.

(** A table of 4 buckets; bucket 2 holds the chain [e1], [e2], [e3]. *)
Definition scenario : snapshot :=
  {| block_type := INDEX; tableSize := 4;
     index_file := header ++ [0; 0; 0x90000001; 0];
     entry_at := blocks |}.



(** Two buckets; the head of bucket 0 does not decode, bucket 1 holds
    [e3]. *)
Definition broken : snapshot :=
  {| block_type := INDEX; tableSize := 2;
     index_file := header ++ [0x90000009; 0x90000003];
     entry_at := blocks |}.

(** One bucket, whose head token 1 is not zero and has its top bit
    clear; the token decodes to [e3] in [unset] and does not decode in
    [unset_raising]. *)
Definition unset : snapshot :=
  {| block_type := INDEX; tableSize := 1;
     index_file := header ++ [1];
     entry_at := fun raw => if raw =? 1 then inr e3 else inl io_error |}.

Definition unset_raising : snapshot :=
  with_entry_at unset (fun _ => inl io_error).

(** Entries with a body stream. *)
Definition page (key : string) (encoding : option string) (body : bytes)
    : CacheEntry.t :=
  {| CacheEntry.hash := 0; CacheEntry.next := 0;
     CacheEntry.keyToStr := key;
     CacheEntry.data :=
       [ {| CacheData.type := CacheData.HTTP_HEADER;
            CacheData.data := inr "HTTP/1.1 200 OK" |};
         {| CacheData.type := CacheData.UNKNOWN;
            CacheData.data := inr body |} ];
     CacheEntry.httpHeader :=
       Some (match encoding with
             | Some enc => {[ "content-encoding" := enc ]}
             | None => ∅
             end) |}.

Definition gzip_page : CacheEntry.t :=
  page "https://www.fanfiction.net/s/1/1/A" (Some "gzip") "not gzip".
Definition br_page : CacheEntry.t :=
  page "https://www.fanfiction.net/s/2/1/B" (Some "br") "not brotli".
Definition deflate_page : CacheEntry.t :=
  page "https://www.fanfiction.net/s/3/1/C" (Some "deflate") "deflated".
Definition odd_page : CacheEntry.t :=
  page "https://www.fanfiction-net/s/1/2/fanfiction.net" None "odd".
Definition other_page : CacheEntry.t :=
  page "https://example.org/" None "other".

Definition pages : list CacheEntry.t :=
  [gzip_page; br_page; deflate_page; odd_page; other_page].

(** A cache directory of 8 buckets that holds the five pages, and the
    [ChromeCache] built from it. *)
Definition library : snapshot :=
  {| block_type := INDEX; tableSize := 8;
     index_file :=
       header ++ [0x90000001; 0; 0x90000002; 0x90000003; 0;
                  0x90000004; 0x90000005; 0];
     entry_at := fun raw =>
       if raw =? 0x90000001 then inr gzip_page
       else if raw =? 0x90000002 then inr br_page
       else if raw =? 0x90000003 then inr deflate_page
       else if raw =? 0x90000004 then inr odd_page
       else if raw =? 0x90000005 then inr other_page
       else inl io_error |}.

Definition store : ChromeCache.t :=
  {| ChromeCache.cache := pages;
     ChromeCache.hash_cache := build_hash_cache pages |}.

(** Decoders that reject every input. *)
Definition bad_gzip (_ : bytes) : pyexn + bytes := inl (PyExn "BadGzipFile").
Definition bad_brotli (_ : bytes) : pyexn + bytes := inl (PyExn "brotli.error").

End Fixture.

(** ** Character classes of strings *)

(** Every character of [s] satisfies [P]. *)
Fixpoint all_chars (P : ascii -> bool) (s : string) : bool :=
  match s with
  | EmptyString => true
  | String c s' => P c && all_chars P s'
  end.

(** A code point below 128. *)
Definition is_ascii (c : ascii) : bool := (N_of_ascii c <? 128)%N.

(** ** The shape of a story key *)

(** The text group 1 of the pattern matches: [https://www], a character,
    [fanfiction], a character, [net/s/], the digits [story], [/], the
    digits [chapter], [/]. *)
Definition story_prefix (c1 c2 : ascii) (story chapter : string) : string :=
  "https://www" +:+ String c1 ("fanfiction" +:+ String c2
    ("net/s/" +:+ story +:+ "/" +:+ chapter +:+ "/")).

(** [s] is empty or starts with a character that is not a digit. *)
Definition no_digit_ahead (s : string) : Prop :=
  match s with
  | EmptyString => True
  | String c _ => Re.is_digit c = false
  end.

(** A newline, as a string. *)
Definition newline : string := String "010" "".

(** ** The names of exported pages

    Lines 186-192 of [exportToHTML]: the name an entry is listed under and
    the text of the link to its data.  [keyLength] is the attribute
    [entry.keyLength]. *)

(** [s.split(sep)] for a separator of one character. *)
Fixpoint split (sep : ascii) (s : string) : list string :=
  match s with
  | EmptyString => [EmptyString]
  | String c s' =>
      if Ascii.eqb c sep then EmptyString :: split sep s'
      else match split sep s' with
           | piece :: pieces => String c piece :: pieces
           | [] => [String c EmptyString]
           end
  end.

(** [l[-k]] for [k] of at least 1: an index out of range raises. *)
Definition from_end {A : Type} (l : list A) (k : nat) : pyexn + A :=
  if (length l <? k)%nat then inl (PyExn "IndexError")
  else match l !! (length l - k)%nat with
       | Some x => inr x
       | None => inl (PyExn "IndexError")
       end.

(** [s.endswith(c)] for one character. *)
Fixpoint endswith (s : string) (c : ascii) : bool :=
  match s with
  | EmptyString => false
  | String x EmptyString => Ascii.eqb x c
  | String _ s' => endswith s' c
  end.

(** Lines 186-189. *)
Definition entry_name (keyLength : Z) (key : string) : string :=
  if 100 <? keyLength then substring 0 100 key +:+ "..." else key.

(** Line 192. *)
Definition page_basename (entry_name : string) : pyexn + string :=
  if endswith entry_name "/" then from_end (split "/" entry_name) 2
  else from_end (split "/" entry_name) 1.

(** ** More example caches *)

Module Sample.

(** A table of 4 buckets in a file that ends after the first two. *)
Definition truncated : snapshot :=
  {| block_type := Fixture.INDEX; tableSize := 4;
     index_file := Fixture.header ++ [0; 0x90000003];
     entry_at := Fixture.blocks |}.

(** The scenario of [Fixture] in a file with the type of a block file. *)
Definition block_file : snapshot :=
  {| block_type := 0xC104CAC3; tableSize := 4;
     index_file := index_file Fixture.scenario;
     entry_at := Fixture.blocks |}.

(** Two chapters of one story, stored one after the other. *)
Definition old_page : CacheEntry.t :=
  Fixture.page "https://www.fanfiction.net/s/7/1/Old" None "old".
Definition new_page : CacheEntry.t :=
  Fixture.page "https://www.fanfiction.net/s/7/1/New" None "new".

(** An entry with a header stream only. *)
Definition headers_page : CacheEntry.t :=
  {| CacheEntry.hash := 0; CacheEntry.next := 0;
     CacheEntry.keyToStr := "https://www.fanfiction.net/s/8/1/H";
     CacheEntry.data :=
       [ {| CacheData.type := CacheData.HTTP_HEADER;
            CacheData.data := inr "HTTP/1.1 304 Not Modified" |} ];
     CacheEntry.httpHeader := Some ∅ |}.

(** An entry whose body stream cannot be read. *)
Definition unreadable_page : CacheEntry.t :=
  {| CacheEntry.hash := 0; CacheEntry.next := 0;
     CacheEntry.keyToStr := "https://www.fanfiction.net/s/9/1/U";
     CacheEntry.data :=
       [ {| CacheData.type := CacheData.HTTP_HEADER;
            CacheData.data := inr "HTTP/1.1 200 OK" |};
         {| CacheData.type := CacheData.UNKNOWN;
            CacheData.data := inl Fixture.io_error |} ];
     CacheEntry.httpHeader := Some {[ "content-encoding" := "gzip" ]} |}.

Definition shelf_pages : list CacheEntry.t :=
  [old_page; new_page; headers_page; unreadable_page].

Definition shelf : ChromeCache.t :=
  {| ChromeCache.cache := shelf_pages;
     ChromeCache.hash_cache := build_hash_cache shelf_pages |}.

(** Decoders that accept every input, in the place of the real ones. *)
Definition gunzip (raw : bytes) : pyexn + bytes := inr ("plain " +:+ raw).
Definition unbrotli (raw : bytes) : pyexn + bytes := inr ("text " +:+ raw).

(** A hash of the encoded bytes, in the place of [superFastHash]: it tells
    a character of two bytes from a character of one. *)
Definition hash_len (url : bytes) : Z := 32 + Z.of_nat (String.length url).



(** An index file whose header says that the table is empty. *)
Definition no_buckets : snapshot :=
  {| block_type := Fixture.INDEX; tableSize := 0;
     index_file := Fixture.header;
     entry_at := Fixture.blocks |}.

End Sample.

(** * Properties *)

(** ** The two loops along a path *)

Section LoopFacts.

Variable dir : snapshot.

Lemma read_word_table i heads k raw :
  table_from dir i heads -> heads !! k = Some raw ->
  read_word dir (Z.of_nat (i + k)) = Ret raw.
Proof.
  intros Ht Hk. unfold read_word.
  destruct (Z.ltb_spec (92 + Z.of_nat (i + k)) 0) as [E|E]; [lia|].
  replace (Z.to_nat (92 + Z.of_nat (i + k))) with (92 + (i + k))%nat by lia.
  by rewrite (Ht _ _ Hk).
Qed.

Lemma bucket_loop_path e pre e' :
  Path dir e pre e' ->
  forall fuel cache, (length pre <= fuel)%nat ->
    bucket_loop dir fuel e cache
    = bucket_loop dir (fuel - length pre) e' (cache ++ pre).
Proof.
  induction 1 as [e|e e1 pre e' Hn Hd _ IH]; intros fuel cache Hf; simpl in *.
  - by rewrite Nat.sub_0_r, app_nil_r.
  - destruct fuel as [|fuel]; [lia|]. simpl.
    destruct (CacheEntry.next e =? 0) eqn:E; [lia|].
    rewrite Hd. simpl. rewrite IH by lia.
    by rewrite <- app_assoc.
Qed.


Lemma bucket_loop_end e fuel cache :
  CacheEntry.next e = 0 -> bucket_loop dir fuel e cache = Ret (e, cache).
Proof. intros H. destruct fuel; simpl; by rewrite H. Qed.

Lemma chain_loop_path h e pre e' :
  Path dir e pre e' ->
  Forall (fun x => CacheEntry.hash x <> h) pre ->
  forall fuel, (length pre <= fuel)%nat ->
    chain_loop dir fuel e h = chain_loop dir (fuel - length pre) e' h.
Proof.
  induction 1 as [e|e e1 pre e' Hn Hd _ IH]; intros Hh fuel Hf; simpl in *.
  - by rewrite Nat.sub_0_r.
  - apply Forall_cons in Hh as [Hh Hpre].
    destruct fuel as [|fuel]; [lia|]. simpl.
    destruct (CacheEntry.hash e =? h) eqn:E1; [lia|].
    destruct (CacheEntry.next e =? 0) eqn:E2; [lia|]. simpl.
    rewrite Hd. simpl. apply IH; [done|lia].
Qed.


Lemma chain_loop_stop h e fuel :
  CacheEntry.hash e = h \/ CacheEntry.next e = 0 ->
  chain_loop dir fuel e h = Ret e.
Proof.
  intros H.
  assert (negb (CacheEntry.hash e =? h) && negb (CacheEntry.next e =? 0)
          = false) as E.
  { destruct H as [H|H]; rewrite H, Z.eqb_refl; simpl; [done|].
    apply andb_false_r. }
  destruct fuel; simpl; by rewrite E.
Qed.



End LoopFacts.

(** ** Full enumeration *)

Section Enumeration.

Variable INDEX : Z.
Variable superFastHash : bytes -> Z.
Variable dir : snapshot.

Lemma for_each_app {A B : Type} (body : B -> A -> outcome B) xs ys acc :
  for_each body (xs ++ ys) acc
  = (acc' ← for_each body xs acc; for_each body ys acc').
Proof.
  revert acc. induction xs as [|x xs IH]; intros acc; simpl; [done|].
  destruct (body acc x); simpl; [apply IH|done|done].
Qed.

Lemma table_from_tail i raw heads :
  table_from dir i (raw :: heads) -> table_from dir (S i) heads.
Proof.
  intros Ht k r Hk.
  replace (S i + k)%nat with (i + S k)%nat by lia. by apply Ht.
Qed.

Lemma table_from_app i good rest :
  table_from dir i (good ++ rest) ->
  table_from dir i good /\ table_from dir (i + length good) rest.
Proof.
  intros Ht. split; intros k r Hk.
  - apply Ht. by apply lookup_app_l_Some.
  - replace (i + length good + k)%nat with (i + (length good + k))%nat by lia.
    apply Ht. by rewrite lookup_app_r, Nat.add_comm, Nat.add_sub by lia.
Qed.

Lemma enumerate_bucket_chain fuel cache i raw heads es :
  table_from dir i (raw :: heads) -> Bucket dir raw es ->
  (length es <= S fuel)%nat ->
  enumerate_bucket dir fuel cache i = Ret (cache ++ es).
Proof.
  intros Ht Hb Hlen. unfold enumerate_bucket.
  replace i with (i + 0)%nat at 1 by lia.
  rewrite (read_word_table dir i (raw :: heads) 0%nat raw Ht eq_refl). simpl.
  unfold Bucket in Hb. destruct (raw =? 0) eqn:E; simpl.
  - subst es. by rewrite app_nil_r.
  - destruct Hb as (e & pre & last & Hd & HP & Hlast & ->).
    rewrite Hd. simpl. rewrite length_app in Hlen. simpl in Hlen.
    rewrite (bucket_loop_path _ _ _ _ HP) by lia.
    rewrite bucket_loop_end by done. simpl.
    by rewrite <- app_assoc.
Qed.

Lemma enumerate_bucket_broken fuel cache i raw heads hops err :
  table_from dir i (raw :: heads) -> raw <> 0 ->
  Broken dir raw hops err -> (hops <= fuel)%nat ->
  enumerate_bucket dir fuel cache i = Raise err.
Proof.
  intros Ht Hraw Hb Hf. unfold enumerate_bucket.
  replace i with (i + 0)%nat at 1 by lia.
  rewrite (read_word_table dir i (raw :: heads) 0%nat raw Ht eq_refl). simpl.
  destruct (raw =? 0) eqn:E; [lia|]. simpl.
  destruct Hb as [[Hd _]|(e & pre & last & Hd & HP & Hn & Herr & ->)].
  - by rewrite Hd.
  - rewrite Hd. simpl.
    rewrite (bucket_loop_path _ _ _ _ HP) by lia.
    destruct (fuel - length pre)%nat as [|fuel'] eqn:Ef; [lia|]. simpl.
    destruct (CacheEntry.next last =? 0) eqn:E'; [lia|].
    by rewrite Herr.
Qed.

Lemma enumerate_buckets fuel heads chains :
  Forall2 (Bucket dir) heads chains ->
  Forall (fun es => (length es <= S fuel)%nat) chains ->
  forall i acc, table_from dir i heads ->
    for_each (enumerate_bucket dir fuel) (seq i (length heads)) acc
    = Ret (acc ++ concat chains).
Proof.
  induction 1 as [|raw es heads chains Hb _ IH]; intros Hlen i acc Ht; simpl.
  - by rewrite app_nil_r.
  - apply Forall_cons in Hlen as [Hes Hlen].
    rewrite (enumerate_bucket_chain _ _ _ _ _ _ Ht Hb Hes). simpl.
    rewrite IH; [by rewrite <- app_assoc|done|].
    by apply table_from_tail with raw.
Qed.

(** C3.  Full enumeration ([urls] is [None]) of an index whose table holds
    the head tokens [heads]: when every bucket with a nonzero head has the
    chain listed for it in [chains] and a bucket with a zero head has the
    empty list, [parse] returns exactly the concatenation of the chains,
    bucket after bucket, each chain head first and successor after
    successor up to the entry whose [next] is 0.  The loops end within
    the length of the longest chain. *)
Theorem parse_enumerates_every_chain fuel heads chains :
  block_type dir = INDEX ->
  length heads = Z.to_nat (tableSize dir) ->
  table_from dir 0 heads ->
  Forall2 (Bucket dir) heads chains ->
  Forall (fun es => (length es <= S fuel)%nat) chains ->
  parse INDEX superFastHash dir fuel None
  = Ret {| cache := concat chains; stderr := [] |}.
Proof.
  intros Hty Hlen Ht Hb Hfuel. unfold parse, range.
  rewrite Hty, Z.eqb_refl. simpl. rewrite <- Hlen.
  by rewrite (enumerate_buckets _ _ _ Hb Hfuel 0%nat [] Ht).
Qed.

(** C4, as the code has it.  An exception raised while an entry is decoded
    leaves [parse]: when the buckets before bucket [length good] hold
    well-formed chains and decoding the head of that bucket, or a
    successor on its chain, raises [err], full enumeration raises [err];
    no list is returned, whatever the later buckets hold. *)
Theorem parse_propagates_decode_error fuel good chains raw rest hops err :
  block_type dir = INDEX ->
  length (good ++ raw :: rest) = Z.to_nat (tableSize dir) ->
  table_from dir 0 (good ++ raw :: rest) ->
  Forall2 (Bucket dir) good chains ->
  Forall (fun es => (length es <= S fuel)%nat) chains ->
  raw <> 0 ->
  Broken dir raw hops err ->
  (hops <= fuel)%nat ->
  parse INDEX superFastHash dir fuel None = Raise err.
Proof.
  intros Hty Hlen Ht Hb Hfuel Hraw Hbr Hhops. unfold parse, range.
  rewrite Hty, Z.eqb_refl. simpl. rewrite <- Hlen.
  rewrite length_app, seq_app, for_each_app.
  apply table_from_app in Ht as [Hg Hr].
  rewrite (enumerate_buckets _ _ _ Hb Hfuel 0%nat [] Hg). simpl.
  by rewrite (enumerate_bucket_broken _ _ _ _ _ _ _ Hr Hraw Hbr Hhops).
Qed.

End Enumeration.

(** ** Targeted lookup *)

Section Lookup.

Variable INDEX : Z.
Variable superFastHash : bytes -> Z.
Variable dir : snapshot.

Lemma path_prefix e pre1 x pre2 e' :
  Path dir e (pre1 ++ x :: pre2) e' -> Path dir e pre1 x.
Proof.
  revert e. induction pre1 as [|y pre1 IH]; intros e HP; simpl in *.
  - inversion HP; subst. constructor.
  - inversion HP; subst. econstructor; eauto.
Qed.

Lemma lookup_url_walk fuel st url addr e pre e' :
  read_word dir (bucket_index (superFastHash (utf8 url)) (tableSize dir))
  = Ret addr ->
  uninitialized addr = false ->
  entry_at dir addr = inr e ->
  Path dir e pre e' ->
  Forall (fun x => CacheEntry.hash x <> superFastHash (utf8 url)) pre ->
  (length pre <= fuel)%nat ->
  CacheEntry.hash e' = superFastHash (utf8 url) \/ CacheEntry.next e' = 0 ->
  lookup_url superFastHash dir fuel st url
  = if CacheEntry.hash e' =? superFastHash (utf8 url)
    then Ret {| cache := cache st ++ [e']; stderr := stderr st |}
    else Ret st.
Proof.
  intros Hr Hu Hd HP Hh Hf Hstop. unfold lookup_url.
  rewrite Hr. simpl. rewrite Hu, Hd. simpl.
  rewrite (chain_loop_path _ _ _ _ _ HP Hh) by done.
  by rewrite chain_loop_stop.
Qed.

(** Appending what one lookup found to what was found before. *)
Lemma lookup_url_frame fuel st url :
  lookup_url superFastHash dir fuel st url
  = (d ← lookup_url superFastHash dir fuel
           {| cache := []; stderr := [] |} url;
     Ret {| cache := cache st ++ cache d; stderr := stderr st ++ stderr d |}).
Proof.
  unfold lookup_url.
  destruct (read_word dir _) as [addr| |]; simpl; [|done|done].
  destruct (uninitialized addr); simpl; [by rewrite app_nil_r|].
  destruct (entry_at dir addr) as [err|e]; simpl; [done|].
  destruct (chain_loop dir fuel e _) as [e'| |]; simpl; [|done|done].
  destruct (CacheEntry.hash e' =? _); simpl;
    [by rewrite app_nil_r|destruct st; simpl; by rewrite !app_nil_r].
Qed.

Lemma lookup_all_frame fuel urls : forall st,
  for_each (lookup_url superFastHash dir fuel) urls st
  = (d ← for_each (lookup_url superFastHash dir fuel) urls
           {| cache := []; stderr := [] |};
     Ret {| cache := cache st ++ cache d; stderr := stderr st ++ stderr d |}).
Proof.
  induction urls as [|url urls IH]; intros st; simpl.
  - destruct st; simpl. by rewrite !app_nil_r.
  - rewrite lookup_url_frame.
    destruct (lookup_url superFastHash dir fuel {| cache := []; stderr := [] |}
                url) as [d| |]; simpl; [|done|done].
    rewrite IH. rewrite (IH d).
    destruct (for_each _ urls {| cache := []; stderr := [] |}) as [d'| |];
      simpl; [|done|done].
    by rewrite !app_assoc.
Qed.

(** [parse] over a list of URLs, seen from one URL of the list: what the
    URLs before it gave, what its own lookup adds, what the URLs after it
    give. *)
Lemma parse_urls_middle fuel before url after st1 st2 stu :
  block_type dir = INDEX ->
  parse INDEX superFastHash dir fuel (Some before) = Ret st1 ->
  parse INDEX superFastHash dir fuel (Some after) = Ret st2 ->
  lookup_url superFastHash dir fuel st1 url = Ret stu ->
  parse INDEX superFastHash dir fuel (Some (before ++ url :: after))
  = Ret {| cache := cache stu ++ cache st2;
           stderr := stderr stu ++ stderr st2 |}.
Proof.
  unfold parse. intros Hty. rewrite Hty, Z.eqb_refl. simpl.
  intros H1 H2 Hu. rewrite for_each_app, H1. simpl. rewrite Hu. simpl.
  by rewrite lookup_all_frame, H2.
Qed.

(** C1.  [parse] with a list of URLs, at a URL [url] of the list whose
    bucket head token [addr] is initialized: the walk goes along the chain
    in order and stops at the first entry whose stored [hash] equals
    [superFastHash] of the UTF-8 bytes of [url]; that entry is in the
    list returned, after the entries of the URLs before [url] and before
    those of the URLs after it.  When the walk reaches the end of the
    chain ([next] is 0) without a match, [url] adds no entry.  In a chain
    of three entries the second of which is the first with the hash of
    [url], the second is the entry returned for [url]. *)
Theorem lookup_accepts_first_hash_match fuel before url after addr st1 st2 :
  let h := superFastHash (utf8 url) in
  block_type dir = INDEX ->
  parse INDEX superFastHash dir fuel (Some before) = Ret st1 ->
  parse INDEX superFastHash dir fuel (Some after) = Ret st2 ->
  read_word dir (bucket_index h (tableSize dir)) = Ret addr ->
  uninitialized addr = false ->
  (forall e pre e',
      entry_at dir addr = inr e -> Path dir e pre e' ->
      Forall (fun x => CacheEntry.hash x <> h) pre ->
      (length pre <= fuel)%nat ->
      CacheEntry.hash e' = h ->
      parse INDEX superFastHash dir fuel (Some (before ++ url :: after))
      = Ret {| cache := cache st1 ++ e' :: cache st2;
               stderr := stderr st1 ++ stderr st2 |}) /\
  (forall e pre e',
      entry_at dir addr = inr e -> Path dir e pre e' ->
      Forall (fun x => CacheEntry.hash x <> h) pre ->
      (length pre <= fuel)%nat ->
      CacheEntry.hash e' <> h -> CacheEntry.next e' = 0 ->
      parse INDEX superFastHash dir fuel (Some (before ++ url :: after))
      = Ret {| cache := cache st1 ++ cache st2;
               stderr := stderr st1 ++ stderr st2 |}) /\
  (forall e1 e2 e3,
      Chain dir addr [e1; e2; e3] ->
      CacheEntry.hash e1 <> h -> CacheEntry.hash e2 = h ->
      (1 <= fuel)%nat ->
      parse INDEX superFastHash dir fuel (Some (before ++ url :: after))
      = Ret {| cache := cache st1 ++ e2 :: cache st2;
               stderr := stderr st1 ++ stderr st2 |}).
Proof.
  intros h Hty H1 H2 Hr Hu.
  assert (forall e pre e',
      entry_at dir addr = inr e -> Path dir e pre e' ->
      Forall (fun x => CacheEntry.hash x <> h) pre ->
      (length pre <= fuel)%nat ->
      CacheEntry.hash e' = h ->
      parse INDEX superFastHash dir fuel (Some (before ++ url :: after))
      = Ret {| cache := cache st1 ++ e' :: cache st2;
               stderr := stderr st1 ++ stderr st2 |}) as Hmatch.
  { intros e pre e' Hd HP Hh Hf He.
    rewrite (parse_urls_middle fuel before url after st1 st2
               {| cache := cache st1 ++ [e']; stderr := stderr st1 |})
      by (try done;
          rewrite (lookup_url_walk fuel st1 url addr e pre e') by auto;
          fold h; by rewrite He, Z.eqb_refl).
    simpl. by rewrite <- app_assoc. }
  split; [exact Hmatch|split].
  - intros e pre e' Hd HP Hh Hf He Hn.
    rewrite (parse_urls_middle fuel before url after st1 st2 st1); [done..|].
    rewrite (lookup_url_walk fuel st1 url addr e pre e') by auto.
    fold h. destruct (CacheEntry.hash e' =? h) eqn:E; [lia|done].
  - intros e1 e2 e3 (e & pre & last & Hd & HP & _ & Hes) He1 He2 Hf.
    assert (pre = [e1; e2]) as ->.
    { change [e1; e2; e3] with ([e1; e2] ++ [e3]) in Hes.
      by apply app_inj_tail in Hes as [-> _]. }
    apply (path_prefix e [e1] e2 [] last) in HP.
    apply (Hmatch e [e1] e2 Hd HP); [|done|done].
    by repeat constructor.
Qed.

Lemma lookup_url_miss fuel st url addr :
  read_word dir (bucket_index (superFastHash (utf8 url)) (tableSize dir))
  = Ret addr ->
  uninitialized addr = true ->
  lookup_url superFastHash dir fuel st url
  = Ret {| cache := cache st; stderr := stderr st ++ [utf8 url] |}.
Proof. intros Hr Hu. unfold lookup_url. rewrite Hr. simpl. by rewrite Hu. Qed.

(** C6.  A URL whose hash selects a bucket with an uninitialized head
    token (top bit clear) is a miss: the loop body for it returns, it
    leaves the list of entries as it was and it prints the line that
    says the URL is not in the cache.  A lookup of URLs that all select
    such buckets returns the empty list and one line per URL. *)
Theorem lookup_uninitialized_bucket_is_miss fuel urls :
  block_type dir = INDEX ->
  Forall (fun url => exists addr,
    read_word dir (bucket_index (superFastHash (utf8 url)) (tableSize dir))
    = Ret addr /\ uninitialized addr = true) urls ->
  (forall st url, url ∈ urls ->
    lookup_url superFastHash dir fuel st url
    = Ret {| cache := cache st; stderr := stderr st ++ [utf8 url] |}) /\
  parse INDEX superFastHash dir fuel (Some urls)
  = Ret {| cache := []; stderr := utf8 <$> urls |}.
Proof.
  intros Hty Hall. split.
  - intros st url Hin. rewrite Forall_forall in Hall.
    destruct (Hall url Hin) as (addr & Hr & Hu).
    by apply lookup_url_miss with addr.
  - unfold parse. rewrite Hty, Z.eqb_refl. simpl.
    change (utf8 <$> urls) with ([] ++ (utf8 <$> urls)).
    generalize (@nil string).
    induction Hall as [|url urls (addr & Hr & Hu) _ IH]; intros lines; simpl.
    + by rewrite app_nil_r.
    + rewrite (lookup_url_miss _ _ _ _ Hr Hu). simpl.
      rewrite IH. by rewrite <- app_assoc.
Qed.

End Lookup.

(** ** Head tokens that are skipped, and the length of a walk *)

Section Walks.

Variable INDEX : Z.
Variable superFastHash : bytes -> Z.
Variable dir : snapshot.

(** C5, as the code has it.  Targeted lookup tests the top bit of the
    head token: when it is clear the URL is a miss, printed as such, no
    entry is appended and nothing is raised.  Full enumeration tests the
    head token against 0: a zero head adds no entry.  In both cases the
    outcome is the same whatever decoding would do, [f] being any
    decoder, one that raises on every token included: no entry is
    decoded. *)
Theorem skipped_head_is_not_decoded fuel (f : Z -> pyexn + CacheEntry.t) :
  (forall st url addr,
      read_word dir (bucket_index (superFastHash (utf8 url)) (tableSize dir))
      = Ret addr ->
      uninitialized addr = true ->
      lookup_url superFastHash (with_entry_at dir f) fuel st url
      = Ret {| cache := cache st; stderr := stderr st ++ [utf8 url] |}) /\
  (forall cache key,
      read_word dir (Z.of_nat key) = Ret 0 ->
      enumerate_bucket (with_entry_at dir f) fuel cache key = Ret cache).
Proof.
  split.
  - intros st url addr Hr Hu.
    by apply (lookup_url_miss superFastHash (with_entry_at dir f)) with addr.
  - intros cache key Hr. unfold enumerate_bucket.
    change (read_word (with_entry_at dir f)) with (read_word dir).
    by rewrite Hr.
Qed.






End Walks.

(** ** The bucket index *)

(** C9.  For a 32-bit [hash] and a [tableSize] that is a power of two,
    [hash & (tableSize - 1)] is at least 0 and below [tableSize]. *)
Theorem bucket_index_in_range hash tableSize k :
  0 <= hash < 2 ^ 32 ->
  0 <= k ->
  tableSize = 2 ^ k ->
  0 <= bucket_index hash tableSize < tableSize.
Proof.
  intros Hh Hk ->. unfold bucket_index.
  replace (2 ^ k - 1) with (Z.ones k) by (rewrite Z.ones_equiv; lia).
  rewrite Z.land_ones by done.
  apply Z.mod_pos_bound. by apply Z.pow_pos_nonneg.
Qed.

(** ** The URL index *)

Section Index.

Lemma append_cons c (a b : string) : String c a +:+ b = String c (a +:+ b).
Proof. reflexivity. Qed.

Lemma prefix_spec p : forall s,
  String.prefix p s = true <-> exists b, s = p +:+ b.
Proof.
  induction p as [|a p IH]; intros s; simpl.
  - destruct s; split; eauto.
  - destruct s as [|c s]; simpl.
    + split; [done|]. by intros [b Hb].
    + destruct (ascii_dec a c) as [->|Hne].
      * rewrite IH. split; intros [b Hb]; exists b;
          rewrite append_cons in *; congruence.
      * split; [done|]. intros [b Hb]. rewrite append_cons in Hb. congruence.
Qed.

Lemma contains_unfold needle hay :
  contains needle hay
  = if String.prefix needle hay then true
    else match hay with
         | EmptyString => false
         | String _ hay' => contains needle hay'
         end.
Proof. by destruct hay. Qed.

(** [contains] is the substring test. *)
Lemma contains_spec needle hay :
  contains needle hay = true <-> exists a b, hay = a +:+ needle +:+ b.
Proof.
  induction hay as [|c hay IH]; rewrite contains_unfold;
    (destruct (String.prefix needle _) eqn:E;
     [split; [|done]; intros _; apply prefix_spec in E as [b Hb];
      by exists "", b|]).
  - split; [done|]. intros (a & b & H).
    destruct a; [|done].
    assert (String.prefix needle "" = true) as E'
      by (apply prefix_spec; eauto). congruence.
  - rewrite IH. split.
    + intros (a & b & ->). by exists (String c a), b.
    + intros (a & b & H). destruct a as [|c' a].
      * assert (String.prefix needle (String c hay) = true) as E'
          by (apply prefix_spec; eauto). congruence.
      * rewrite append_cons in H. injection H as -> ->. eauto.
Qed.

(** The normalization of keys on typical inputs: the title after the
    chapter number is dropped; a key with nothing after it, or of another
    shape, is kept; a newline that ends the key stays in place. *)
Example sub_story_title :
  Re.sub_story "https://www.fanfiction.net/s/123/4/Some-Title"
  = "https://www.fanfiction.net/s/123/4/".
Proof. reflexivity. Qed.

Example sub_story_bare :
  Re.sub_story "https://www.fanfiction.net/s/123/4/"
  = "https://www.fanfiction.net/s/123/4/".
Proof. reflexivity. Qed.

Example sub_story_profile :
  Re.sub_story "https://www.fanfiction.net/u/123/Name"
  = "https://www.fanfiction.net/u/123/Name".
Proof. reflexivity. Qed.

Example sub_story_newline :
  Re.sub_story ("https://www.fanfiction.net/s/123/4/T" +:+ String "010" "")
  = "https://www.fanfiction.net/s/123/4/" +:+ String "010" "".
Proof. reflexivity. Qed.

Lemma index_entry_lookup m entry url e :
  index_entry m entry !! url = Some e ->
  m !! url = Some e \/
  (e = entry /\ contains "fanfiction.net" (CacheEntry.keyToStr entry) = true /\
   (url = CacheEntry.keyToStr entry \/
    url = Re.sub_story (CacheEntry.keyToStr entry))).
Proof.
  unfold index_entry.
  destruct (contains "fanfiction.net" (CacheEntry.keyToStr entry)); simpl;
    [|by left].
  rewrite lookup_insert. case_decide as E1.
  - intros [= <-]. right. auto.
  - rewrite lookup_insert. case_decide as E2; [|by left].
    intros [= <-]. right. auto.
Qed.

Lemma index_entry_keeps m entry url :
  is_Some (m !! url) -> is_Some (index_entry m entry !! url).
Proof.
  intros Hm. unfold index_entry.
  destruct (contains "fanfiction.net" (CacheEntry.keyToStr entry)); simpl;
    [|done].
  rewrite !lookup_insert_is_Some. destruct_decide (decide
    (Re.sub_story (CacheEntry.keyToStr entry) = url)) as E1; [by left|].
  right. split; [done|].
  destruct_decide (decide (CacheEntry.keyToStr entry = url)) as E2; auto.
Qed.

Lemma index_entry_adds m entry :
  contains "fanfiction.net" (CacheEntry.keyToStr entry) = true ->
  is_Some (index_entry m entry !! CacheEntry.keyToStr entry) /\
  is_Some (index_entry m entry !! Re.sub_story (CacheEntry.keyToStr entry)).
Proof.
  intros Hc. unfold index_entry. rewrite Hc. simpl.
  rewrite !lookup_insert_is_Some. split; [|by left].
  destruct_decide (decide (Re.sub_story (CacheEntry.keyToStr entry)
                           = CacheEntry.keyToStr entry)) as E; [by left|].
  right. split; [done|by left].
Qed.

Lemma fold_index_lookup cache : forall m url e,
  fold_left index_entry cache m !! url = Some e ->
  m !! url = Some e \/
  (e ∈ cache /\ contains "fanfiction.net" (CacheEntry.keyToStr e) = true /\
   (url = CacheEntry.keyToStr e \/ url = Re.sub_story (CacheEntry.keyToStr e))).
Proof.
  induction cache as [|entry cache IH]; intros m url e H; simpl in *.
  - by left.
  - apply IH in H as [H|(Hin & Hc & Hk)].
    + apply index_entry_lookup in H as [H|(-> & Hc & Hk)]; [by left|].
      right. split; [apply list_elem_of_here|done].
    + right. split; [by apply list_elem_of_further|done].
Qed.

Lemma fold_index_keeps cache : forall m url,
  is_Some (m !! url) -> is_Some (fold_left index_entry cache m !! url).
Proof.
  induction cache as [|entry cache IH]; intros m url H; simpl; [done|].
  apply IH. by apply index_entry_keeps.
Qed.

Lemma fold_index_adds cache : forall m entry,
  entry ∈ cache ->
  contains "fanfiction.net" (CacheEntry.keyToStr entry) = true ->
  is_Some (fold_left index_entry cache m !! CacheEntry.keyToStr entry) /\
  is_Some (fold_left index_entry cache m
             !! Re.sub_story (CacheEntry.keyToStr entry)).
Proof.
  induction cache as [|x cache IH]; intros m entry Hin Hc; simpl.
  - by apply elem_of_nil in Hin.
  - apply elem_of_cons in Hin as [->|Hin]; [|by apply IH].
    destruct (index_entry_adds m x Hc) as [H1 H2].
    split; by apply fold_index_keeps.
Qed.

End Index.

(** ** The body accessor *)

Section Accessor.

Variable gzip_decompress : bytes -> pyexn + bytes.
Variable brotli : bytes -> pyexn + bytes.

Lemma first_unknown_skip entry before streams :
  Forall (fun x => CacheData.type x <> CacheData.UNKNOWN) before ->
  first_unknown gzip_decompress brotli entry (before ++ streams)
  = first_unknown gzip_decompress brotli entry streams.
Proof.
  induction 1 as [|x before Hx _ IH]; simpl; [done|].
  by rewrite decide_False.
Qed.

Lemma get_body self url entry d raw :
  ChromeCache.hash_cache self !! url = Some entry ->
  body_stream entry d raw ->
  get_cached_file gzip_decompress brotli self url
  = match transport_decode gzip_decompress brotli entry raw with
    | (out, inl e) => (out, inl e)
    | (out, inr data) => (out, inr (Some data))
    end.
Proof.
  intros Hl (before & after & Hd & Hb & Ht & Hraw).
  unfold get_cached_file. rewrite Hl, Hd, first_unknown_skip by done.
  simpl. by rewrite decide_True, Hraw.
Qed.

Lemma transport_decode_encoding entry raw :
  transport_decode gzip_decompress brotli entry raw
  = match content_encoding entry with
    | Some encoding =>
        if String.eqb encoding "gzip" then ([], gzip_decompress raw)
        else if String.eqb encoding "br" then brotli_decompress brotli raw
        else ([], inr raw)
    | None => ([], inr raw)
    end.
Proof.
  unfold transport_decode, content_encoding.
  by destruct (CacheEntry.httpHeader entry).
Qed.

(** C7, as the code has it.  When the body of an indexed entry is
    declared [gzip] and [gzip.decompress] raises [err] on it,
    [get_cached_file] raises [err]: no bytes are returned.  The same
    holds for a body declared [br] on which the Brotli decoder raises,
    after the timing line is printed. *)
Theorem get_cached_file_raises_on_bad_body self url entry d raw err :
  ChromeCache.hash_cache self !! url = Some entry ->
  body_stream entry d raw ->
  (content_encoding entry = Some "gzip" ->
   gzip_decompress raw = inl err ->
   get_cached_file gzip_decompress brotli self url = ([], inl err)) /\
  (content_encoding entry = Some "br" ->
   brotli raw = inl err ->
   get_cached_file gzip_decompress brotli self url
   = ([time_line], inl err)).
Proof.
  intros Hl Hb. rewrite (get_body _ _ _ _ _ Hl Hb), transport_decode_encoding.
  split; intros -> Herr; simpl; unfold brotli_decompress; by rewrite Herr.
Qed.

(** C8, as the code has it.  When the value of [content-encoding] is
    neither [gzip] nor [br] (it may be [identity] or anything else), or
    the entry has no such header, [get_cached_file] returns the bytes of
    the body stream unchanged: it raises nothing and prints nothing, so
    no warning goes with the bytes. *)
Theorem get_cached_file_returns_raw_otherwise self url entry d raw :
  ChromeCache.hash_cache self !! url = Some entry ->
  body_stream entry d raw ->
  content_encoding entry <> Some "gzip" ->
  content_encoding entry <> Some "br" ->
  get_cached_file gzip_decompress brotli self url = ([], inr (Some raw)).
Proof.
  intros Hl Hb Hg Hbr.
  rewrite (get_body _ _ _ _ _ Hl Hb), transport_decode_encoding.
  destruct (content_encoding entry) as [encoding|]; [|done].
  destruct (String.eqb_spec encoding "gzip") as [->|_]; [done|].
  destruct (String.eqb_spec encoding "br") as [->|_]; done.
Qed.

Lemma init_parsed INDEX superFastHash dir fuel self :
  ChromeCache.init INDEX superFastHash dir fuel = Ret self ->
  parse INDEX superFastHash dir fuel None
  = Ret {| cache := ChromeCache.cache self; stderr := [] |} /\
  ChromeCache.hash_cache self = build_hash_cache (ChromeCache.cache self).
Proof.
  unfold ChromeCache.init, parse.
  destruct (negb (block_type dir =? INDEX)); [done|].
  destruct (for_each (enumerate_bucket dir fuel) (range (tableSize dir)) [])
    as [parsed| |]; simpl; [|done|done].
  by intros [= <-].
Qed.

(** X22.  In a [ChromeCache] built from a cache directory, the value the
    index holds under [url] is an entry of the parsed list whose key
    contains [fanfiction.net], and [url] is that key or its normalized
    form; each such entry puts both keys in the index.  For a [url] that
    is not a key of the index [get_cached_file] returns [None], nothing
    raised; that is the case of a [url] without [fanfiction.net] that is
    not the normalized form of the key of an indexed entry, whether or
    not the parsed list has an entry whose key is [url]. *)
Theorem index_holds_only_fanfiction_entries
    INDEX superFastHash dir fuel self url :
  ChromeCache.init INDEX superFastHash dir fuel = Ret self ->
  parse INDEX superFastHash dir fuel None
  = Ret {| cache := ChromeCache.cache self; stderr := [] |} /\
  (forall entry, ChromeCache.hash_cache self !! url = Some entry ->
     entry ∈ ChromeCache.cache self /\
     contains "fanfiction.net" (CacheEntry.keyToStr entry) = true /\
     (url = CacheEntry.keyToStr entry \/
      url = Re.sub_story (CacheEntry.keyToStr entry))) /\
  (forall entry, entry ∈ ChromeCache.cache self ->
     contains "fanfiction.net" (CacheEntry.keyToStr entry) = true ->
     is_Some (ChromeCache.hash_cache self !! CacheEntry.keyToStr entry) /\
     is_Some (ChromeCache.hash_cache self
                !! Re.sub_story (CacheEntry.keyToStr entry))) /\
  (ChromeCache.hash_cache self !! url = None ->
   get_cached_file gzip_decompress brotli self url = ([], inr None)) /\
  (contains "fanfiction.net" url = false ->
   (forall entry, entry ∈ ChromeCache.cache self ->
      contains "fanfiction.net" (CacheEntry.keyToStr entry) = true ->
      Re.sub_story (CacheEntry.keyToStr entry) <> url) ->
   get_cached_file gzip_decompress brotli self url = ([], inr None)).
Proof.
  intros Hinit. apply init_parsed in Hinit as [Hparse Hindex].
  split; [exact Hparse|]. clear Hparse.
  assert (forall entry, ChromeCache.hash_cache self !! url = Some entry ->
     entry ∈ ChromeCache.cache self /\
     contains "fanfiction.net" (CacheEntry.keyToStr entry) = true /\
     (url = CacheEntry.keyToStr entry \/
      url = Re.sub_story (CacheEntry.keyToStr entry))) as Honly.
  { rewrite Hindex. intros entry H.
    apply fold_index_lookup in H as [H|H]; [|done].
    by rewrite lookup_empty in H. }
  split; [exact Honly|split; [|split]].
  - rewrite Hindex. intros entry Hin Hc. by apply fold_index_adds.
  - intros H. unfold get_cached_file. by rewrite H.
  - intros Hu Hnorm. unfold get_cached_file.
    destruct (ChromeCache.hash_cache self !! url) as [entry|] eqn:E; [|done].
    destruct (Honly entry eq_refl) as (Hin & Hc & [->| ->]).
    + congruence.
    + by destruct (Hnorm entry Hin Hc).
Qed.

End Accessor.

(** * The properties on the example caches *)

Import Fixture.

(** ** Facts about the examples *)

Lemma scenario_table : table_from scenario 0 [0; 0; 0x90000001; 0].
Proof.
  intros k raw Hk.
  do 4 (destruct k as [|k]; [by injection Hk as <-|]). done.
Qed.

Lemma scenario_path : Path scenario e1 [e1; e2] e3.
Proof.
  apply Path_hop with e2; [done|reflexivity|].
  apply Path_hop with e3; [done|reflexivity|constructor].
Qed.

Lemma scenario_chain : Chain scenario 0x90000001 [e1; e2; e3].
Proof.
  exists e1, [e1; e2], e3. repeat split. apply scenario_path.
Qed.

Lemma scenario_buckets :
  Forall2 (Bucket scenario) [0; 0; 0x90000001; 0] [[]; []; [e1; e2; e3]; []].
Proof.
  repeat constructor. apply scenario_chain.
Qed.




Lemma broken_table : table_from broken 0 ([] ++ 0x90000009 :: [0x90000003]).
Proof.
  intros k raw Hk.
  do 2 (destruct k as [|k]; [by injection Hk as <-|]). done.
Qed.

Lemma page_body key encoding body :
  body_stream (page key encoding body)
    {| CacheData.type := CacheData.UNKNOWN; CacheData.data := inr body |} body.
Proof.
  exists [ {| CacheData.type := CacheData.HTTP_HEADER;
              CacheData.data := inr "HTTP/1.1 200 OK" |} ], [].
  repeat split. by repeat constructor.
Qed.

(** ** C1: the scenario of the three-entry chain *)

(** With a table of 4 buckets and the chain [e1], [e2], [e3] in bucket 2,
    [parse] returns [e2] for a URL whose encoded bytes have the hash of
    [e2]; the URL is one character of two bytes, and the URL after it is
    a miss. *)
Lemma lookup_accepts_first_hash_match_witness :
  utf8 (String "233" "") = String "195" (String "169" "") /\
  bucket_index (Sample.hash_len (utf8 (String "233" ""))) (tableSize scenario)
  = 2 /\
  parse INDEX Sample.hash_len scenario 1
    (Some ([] ++ String "233" "" :: ["a"]))
  = Ret {| cache := [] ++ e2 :: []; stderr := [] ++ ["a"] |}.
Proof.
  split; [reflexivity|]. split; [reflexivity|].
  apply (proj2 (proj2 (lookup_accepts_first_hash_match INDEX Sample.hash_len
           scenario 1 [] (String "233" "") ["a"] 0x90000001
           {| cache := []; stderr := [] |}
           {| cache := []; stderr := ["a"] |}
           eq_refl eq_refl eq_refl eq_refl eq_refl))
           e1 e2 e3 scenario_chain).
  - vm_compute. congruence.
  - reflexivity.
  - lia.
Defined.

(** ** C3 *)

Lemma parse_enumerates_every_chain_witness :
  parse INDEX hash_of scenario 2 None
  = Ret {| cache := [e1; e2; e3]; stderr := [] |}.
Proof.
  apply (parse_enumerates_every_chain INDEX hash_of scenario 2
           [0; 0; 0x90000001; 0] [[]; []; [e1; e2; e3]; []]).
  - reflexivity.
  - reflexivity.
  - apply scenario_table.
  - apply scenario_buckets.
  - repeat constructor; simpl; lia.
Defined.

(** ** C6 *)

Lemma lookup_uninitialized_bucket_is_miss_witness :
  parse INDEX hash_of scenario 0 (Some ["http://a/"])
  = Ret {| cache := []; stderr := ["http://a/"] |}.
Proof.
  apply (lookup_uninitialized_bucket_is_miss INDEX hash_of scenario 0
           ["http://a/"]).
  - reflexivity.
  - repeat constructor. exists 0. split; reflexivity.
Defined.

(** ** C9 *)

Lemma bucket_index_in_range_witness :
  0 <= bucket_index 0xDEADBEEF 4 < 4.
Proof.
  apply (bucket_index_in_range 0xDEADBEEF 4 2); [lia|lia|reflexivity].
Defined.

(** ** C2 *)






(** ** C4 *)

(** The claim fails on [broken]: bucket 1 holds [e3], which decodes, but
    the head of bucket 0 does not decode and [parse] raises; no list is
    returned, with [e3] or without. *)
Lemma decode_error_aborts_enumeration :
  entry_at broken 0x90000003 = inr e3 /\
  (forall fuel, parse INDEX hash_of broken fuel None = Raise io_error).
Proof. split; [reflexivity|]. intros fuel. reflexivity. Qed.

Lemma parse_propagates_decode_error_witness :
  parse INDEX hash_of broken 0 None = Raise io_error.
Proof.
  apply (parse_propagates_decode_error INDEX hash_of broken 0
           [] [] 0x90000009 [0x90000003] 0 io_error).
  - reflexivity.
  - reflexivity.
  - apply broken_table.
  - constructor.
  - constructor.
  - lia.
  - left. split; reflexivity.
  - lia.
Defined.

(** ** C5 *)

(** The claim fails in full enumeration on the head token 1, which has its
    top bit clear and is not zero: the token is decoded.  Where it decodes
    to an entry the entry is emitted; where it does not decode [parse]
    raises. *)
Lemma nonzero_uninitialized_head_is_decoded :
  uninitialized 1 = true /\
  parse INDEX hash_of unset 0 None = Ret {| cache := [e3]; stderr := [] |} /\
  parse INDEX hash_of unset_raising 0 None = Raise io_error.
Proof. repeat split. Qed.

Lemma skipped_head_is_not_decoded_witness :
  lookup_url hash_of (with_entry_at scenario (fun _ => inl io_error)) 0
    {| cache := []; stderr := [] |} "http://a/"
  = Ret {| cache := []; stderr := ["http://a/"] |} /\
  enumerate_bucket (with_entry_at scenario (fun _ => inl io_error)) 0 [] 0
  = Ret [].
Proof.
  pose proof (skipped_head_is_not_decoded hash_of scenario 0
                (fun _ => inl io_error)) as [H1 H2].
  split.
  - apply (H1 {| cache := []; stderr := [] |} "http://a/" 0); reflexivity.
  - apply (H2 [] 0%nat). reflexivity.
Defined.

(** ** C7 *)

(** The claim fails on a body declared [gzip] that does not inflate:
    [get_cached_file] raises the decoder's exception and returns no bytes;
    likewise for [br]. *)
Lemma bad_gzip_body_is_not_returned :
  ChromeCache.init INDEX hash_of library 0 = Ret store /\
  bad_gzip "not gzip" = inl (PyExn "BadGzipFile") /\
  get_cached_file bad_gzip bad_brotli store "https://www.fanfiction.net/s/1/1/A"
  = ([], inl (PyExn "BadGzipFile")) /\
  get_cached_file bad_gzip bad_brotli store "https://www.fanfiction.net/s/2/1/B"
  = ([time_line], inl (PyExn "brotli.error")).
Proof. repeat split. Qed.

Lemma get_cached_file_raises_on_bad_body_witness :
  get_cached_file bad_gzip bad_brotli store "https://www.fanfiction.net/s/1/1/A"
  = ([], inl (PyExn "BadGzipFile")) /\
  get_cached_file bad_gzip bad_brotli store "https://www.fanfiction.net/s/2/1/B"
  = ([time_line], inl (PyExn "brotli.error")).
Proof.
  split.
  - apply (proj1 (get_cached_file_raises_on_bad_body bad_gzip bad_brotli store
             "https://www.fanfiction.net/s/1/1/A" gzip_page _ "not gzip"
             (PyExn "BadGzipFile") eq_refl (page_body _ _ _)));
      reflexivity.
  - apply (proj2 (get_cached_file_raises_on_bad_body bad_gzip bad_brotli store
             "https://www.fanfiction.net/s/2/1/B" br_page _ "not brotli"
             (PyExn "brotli.error") eq_refl (page_body _ _ _)));
      reflexivity.
Defined.

(** ** C8 *)

(** The claim fails on a body declared [deflate]: the bytes are returned
    as they are and nothing else comes with them; no line is printed, so
    there is no warning. *)
Lemma unsupported_encoding_gives_no_warning :
  ChromeCache.init INDEX hash_of library 0 = Ret store /\
  content_encoding deflate_page = Some "deflate" /\
  get_cached_file bad_gzip bad_brotli store "https://www.fanfiction.net/s/3/1/C"
  = ([], inr (Some "deflated")).
Proof. repeat split. Qed.

Lemma get_cached_file_returns_raw_otherwise_witness :
  get_cached_file bad_gzip bad_brotli store "https://www.fanfiction.net/s/3/1/C"
  = ([], inr (Some "deflated")) /\
  get_cached_file bad_gzip bad_brotli store "https://www.fanfiction-net/s/1/2/"
  = ([], inr (Some "odd")).
Proof.
  split.
  - apply (get_cached_file_returns_raw_otherwise bad_gzip bad_brotli store
             "https://www.fanfiction.net/s/3/1/C" deflate_page _ "deflated"
             eq_refl (page_body _ _ _)); vm_compute; congruence.
  - apply (get_cached_file_returns_raw_otherwise bad_gzip bad_brotli store
             "https://www.fanfiction-net/s/1/2/" odd_page _ "odd"
             eq_refl (page_body _ _ _)); vm_compute; congruence.
Defined.

(** ** C10 and X22 *)

(** C10.  The index is meant to hold keys of [www.fanfiction.net] only,
    so that a URL without [fanfiction.net] gets [None].  The code misses
    that on the entry [odd_page] of the cache directory [library]: its
    key contains [fanfiction.net], so it is indexed; the two dots of the
    pattern of line 148 are not escaped and match the [-] of
    [www.fanfiction-net], so the key is normalized to a URL that does not
    contain [fanfiction.net]; and [get_cached_file] returns the body of
    [odd_page] for that URL instead of [None]. *)
Lemma url_without_fanfiction_net_is_served :
  ChromeCache.init INDEX hash_of library 0 = Ret store /\
  odd_page ∈ ChromeCache.cache store /\
  contains "fanfiction.net" (CacheEntry.keyToStr odd_page) = true /\
  Re.sub_story (CacheEntry.keyToStr odd_page)
  = "https://www.fanfiction-net/s/1/2/" /\
  contains "fanfiction.net" "https://www.fanfiction-net/s/1/2/" = false /\
  get_cached_file bad_gzip bad_brotli store "https://www.fanfiction-net/s/1/2/"
  = ([], inr (Some "odd")).
Proof.
  split; [reflexivity|]. split; [by repeat constructor|].
  split; [reflexivity|]. split; [reflexivity|]. split; reflexivity.
Qed.

Lemma library_store : ChromeCache.init INDEX hash_of library 0 = Ret store.
Proof. reflexivity. Qed.

Lemma index_holds_only_fanfiction_entries_witness :
  contains "fanfiction.net" "https://example.org/" = false /\
  other_page ∈ ChromeCache.cache store /\
  get_cached_file bad_gzip bad_brotli store "https://example.org/"
  = ([], inr None).
Proof.
  split; [reflexivity|split; [by repeat constructor|]].
  apply (proj1 (proj2 (proj2 (proj2 (index_holds_only_fanfiction_entries
           bad_gzip bad_brotli INDEX hash_of library 0 store
           "https://example.org/" library_store))))).
  reflexivity.
Defined.

(** * Further properties of [parse] *)

Section IndexReads.

Variable INDEX : Z.
Variable superFastHash : bytes -> Z.
Variable dir : snapshot.

Lemma land_range h m : 0 <= m -> 0 <= Z.land h m <= m.
Proof.
  intros Hm. split; [apply Z.land_nonneg; by right|].
  pose proof (Z.add_lor_land (Z.ldiff m h) (Z.land m h)) as Hadd.
  rewrite Z.lor_ldiff_and in Hadd.
  assert (Z.land (Z.ldiff m h) (Z.land m h) = 0) as Hdisj.
  { rewrite (Z.land_comm m h), Z.land_assoc, Z.land_ldiff. apply Z.land_0_l. }
  assert (0 <= Z.ldiff m h) by (apply Z.ldiff_nonneg; by left).
  rewrite (Z.land_comm h m). lia.
Qed.

Lemma read_word_Ret key raw :
  read_word dir key = Ret raw <->
  0 <= 92 + key /\ index_file dir !! Z.to_nat (92 + key) = Some raw.
Proof.
  unfold read_word. destruct (Z.ltb_spec (92 + key) 0) as [E|E].
  - split; [done|lia].
  - destruct (index_file dir !! Z.to_nat (92 + key)) as [w|]; split;
      try done; try (intros [= ->]; done); intros [_ H]; congruence.
Qed.

(** X1.  The bucket index of targeted lookup is at least 0 and below
    [tableSize] for any hash and any [tableSize] of at least 1, a power of
    two or not; when the index file holds the 92 header words and
    [tableSize] table words, the read of the head token returns. *)
Theorem lookup_reads_inside_table url :
  1 <= tableSize dir ->
  (92 + Z.to_nat (tableSize dir) <= length (index_file dir))%nat ->
  0 <= bucket_index (superFastHash (utf8 url)) (tableSize dir)
    < tableSize dir /\
  exists addr,
    read_word dir (bucket_index (superFastHash (utf8 url)) (tableSize dir))
    = Ret addr.
Proof.
  intros Hts Hlen. unfold bucket_index.
  pose proof (land_range (superFastHash (utf8 url)) (tableSize dir - 1))
    as Hr.
  split; [lia|].
  destruct (lookup_lt_is_Some_2 (index_file dir)
    (Z.to_nat (92 + Z.land (superFastHash (utf8 url)) (tableSize dir - 1))))
    as [addr Ha]; [lia|].
  exists addr. apply read_word_Ret. split; [lia|done].
Qed.

(** X2.  When the index file ends before the table does, full enumeration
    raises [struct.error] at the first bucket that is not in the file,
    after well-formed buckets; the entries collected from them are not
    returned. *)
Theorem parse_raises_on_truncated_index fuel heads chains :
  block_type dir = INDEX ->
  table_from dir 0 heads ->
  (length (index_file dir) <= 92 + length heads)%nat ->
  (length heads < Z.to_nat (tableSize dir))%nat ->
  Forall2 (Bucket dir) heads chains ->
  Forall (fun es => (length es <= S fuel)%nat) chains ->
  parse INDEX superFastHash dir fuel None = Raise (PyExn "struct.error").
Proof.
  intros Hty Ht Hfile Hlen Hb Hfuel. unfold parse, range.
  rewrite Hty, Z.eqb_refl. simpl.
  replace (Z.to_nat (tableSize dir))
    with (length heads + S (Z.to_nat (tableSize dir) - S (length heads)))%nat
    by lia.
  rewrite seq_app, for_each_app.
  rewrite (enumerate_buckets dir fuel heads chains Hb Hfuel 0%nat [] Ht).
  simpl. unfold enumerate_bucket, read_word.
  destruct (Z.ltb_spec (92 + Z.of_nat (length heads)) 0) as [E|E]; [lia|].
  rewrite (lookup_ge_None_2 (index_file dir)) by lia. done.
Qed.

Lemma bucket_loop_Ret fuel : forall e cache last cache',
  bucket_loop dir fuel e cache = Ret (last, cache') ->
  exists pre, Path dir e pre last /\ CacheEntry.next last = 0 /\
              cache' = cache ++ pre.
Proof.
  induction fuel as [|fuel IH]; intros e cache last cache'; simpl;
    destruct (CacheEntry.next e =? 0) eqn:E; try done.
  - intros [= <- <-]. exists []. split; [constructor|].
    split; [lia|by rewrite app_nil_r].
  - intros [= <- <-]. exists []. split; [constructor|].
    split; [lia|by rewrite app_nil_r].
  - destruct (entry_at dir (CacheEntry.next e)) as [err|e1] eqn:Hd;
      simpl; [done|].
    intros H. apply IH in H as (pre & HP & Hn & ->).
    exists (e :: pre). split; [|split; [done|by rewrite <- app_assoc]].
    apply Path_hop with e1; [lia|done|done].
Qed.

Lemma enumerate_bucket_Ret fuel cache key cache' :
  enumerate_bucket dir fuel cache key = Ret cache' ->
  exists raw es,
    index_file dir !! (92 + key)%nat = Some raw /\
    Bucket dir raw es /\ cache' = cache ++ es.
Proof.
  unfold enumerate_bucket.
  destruct (read_word dir (Z.of_nat key)) as [raw| |] eqn:Hr; simpl;
    [|done|done].
  apply read_word_Ret in Hr as [_ Hr].
  replace (Z.to_nat (92 + Z.of_nat key)) with (92 + key)%nat in Hr by lia.
  intros H. exists raw. unfold Bucket.
  destruct (raw =? 0) eqn:E; simpl in H.
  - injection H as <-. exists []. by rewrite app_nil_r.
  - destruct (entry_at dir raw) as [err|e] eqn:Hd; simpl in H; [done|].
    destruct (bucket_loop dir fuel e cache) as [[last c]| |] eqn:Hl;
      simpl in H; [|done|done].
    injection H as <-.
    apply bucket_loop_Ret in Hl as (pre & HP & Hn & ->).
    exists (pre ++ [last]). split; [done|].
    split; [|by rewrite <- app_assoc].
    by exists e, pre, last.
Qed.

Lemma enumerate_buckets_Ret fuel n : forall i acc acc',
  for_each (enumerate_bucket dir fuel) (seq i n) acc = Ret acc' ->
  exists heads chains,
    length heads = n /\ table_from dir i heads /\
    Forall2 (Bucket dir) heads chains /\ acc' = acc ++ concat chains.
Proof.
  induction n as [|n IH]; intros i acc acc'; simpl.
  - intros [= <-]. exists [], []. repeat split; [done|constructor|].
    by rewrite app_nil_r.
  - destruct (enumerate_bucket dir fuel acc i) as [acc1| |] eqn:He;
      simpl; [|done|done].
    apply enumerate_bucket_Ret in He as (raw & es & Hraw & Hb & ->).
    intros H. apply IH in H as (heads & chains & Hlen & Ht & Hbs & ->).
    exists (raw :: heads), (es :: chains). simpl.
    split; [by rewrite Hlen|]. split; [|split].
    + intros [|k] r Hk; simpl in Hk.
      * injection Hk as <-. by rewrite Nat.add_0_r.
      * replace (i + S k)%nat with (S i + k)%nat by lia. by apply Ht.
    + by constructor.
    + by rewrite <- app_assoc.
Qed.

(** X3.  Whenever full enumeration returns, the index has the type of an
    index file, the file holds all [tableSize] head tokens, and the list
    returned is the concatenation, bucket after bucket, of the chains of
    the buckets: every bucket's part ends with an entry whose [next] is 0,
    and nothing was printed. *)
Theorem parse_enumeration_sound fuel st :
  parse INDEX superFastHash dir fuel None = Ret st ->
  block_type dir = INDEX /\
  exists heads chains,
    length heads = Z.to_nat (tableSize dir) /\
    table_from dir 0 heads /\
    Forall2 (Bucket dir) heads chains /\
    st = {| cache := concat chains; stderr := [] |}.
Proof.
  unfold parse, range.
  destruct (Z.eqb_spec (block_type dir) INDEX) as [Hty|_]; simpl; [|done].
  destruct (for_each _ _ _) as [acc| |] eqn:Hf; simpl; [|done|done].
  intros [= <-]. split; [done|].
  apply enumerate_buckets_Ret in Hf as (heads & chains & Hlen & Ht & Hb & ->).
  by exists heads, chains.
Qed.

End IndexReads.

Section LookupMore.

Variable INDEX : Z.
Variable superFastHash : bytes -> Z.
Variable dir : snapshot.

Lemma chain_loop_Ret h fuel : forall e e',
  chain_loop dir fuel e h = Ret e' ->
  exists pre, Path dir e pre e' /\
    Forall (fun x => CacheEntry.hash x <> h) pre /\
    (CacheEntry.hash e' = h \/ CacheEntry.next e' = 0).
Proof.
  assert (forall e e',
    negb (CacheEntry.hash e =? h) && negb (CacheEntry.next e =? 0) = false ->
    Ret e = Ret e' ->
    exists pre, Path dir e pre e' /\
      Forall (fun x => CacheEntry.hash x <> h) pre /\
      (CacheEntry.hash e' = h \/ CacheEntry.next e' = 0)) as Hstop.
  { intros e e' E [= <-]. exists []. split; [constructor|]. split; [done|].
    apply andb_false_iff in E as [E|E]; apply negb_false_iff in E; lia. }
  induction fuel as [|fuel IH]; intros e e'; simpl;
    destruct (negb (CacheEntry.hash e =? h)
              && negb (CacheEntry.next e =? 0)) eqn:E; try done; eauto.
  apply andb_true_iff in E as [E1 E2].
  apply negb_true_iff in E1, E2.
  destruct (entry_at dir (CacheEntry.next e)) as [err|e1] eqn:Hd;
    simpl; [done|].
  intros H. apply IH in H as (pre & HP & Hh & Hstop').
  exists (e :: pre). split; [|split; [|done]].
  - apply Path_hop with e1; [lia|done|done].
  - constructor; [lia|done].
Qed.

(** X4.  A lookup of one URL that returns has done one of three things: the
    head token of the URL's bucket has its top bit clear and the miss
    line was printed; or the walk stopped at the first entry of the chain
    with the hash of the URL, which was appended; or the walk reached the
    end of the chain, no entry of which has that hash, and then nothing
    was appended and nothing printed. *)
Theorem lookup_url_Ret fuel st url st' :
  lookup_url superFastHash dir fuel st url = Ret st' ->
  let h := superFastHash (utf8 url) in
  exists addr,
    read_word dir (bucket_index h (tableSize dir)) = Ret addr /\
    ((uninitialized addr = true /\
      st' = {| cache := cache st; stderr := stderr st ++ [utf8 url] |}) \/
     (uninitialized addr = false /\
      exists e pre e',
        entry_at dir addr = inr e /\ Path dir e pre e' /\
        Forall (fun x => CacheEntry.hash x <> h) pre /\
        ((CacheEntry.hash e' = h /\
          st' = {| cache := cache st ++ [e']; stderr := stderr st |}) \/
         (CacheEntry.hash e' <> h /\ CacheEntry.next e' = 0 /\ st' = st)))).
Proof.
  intros H h. unfold lookup_url in H. fold h in H.
  destruct (read_word dir (bucket_index h (tableSize dir)))
    as [addr| |] eqn:Hr; simpl in H; [|done|done].
  exists addr. split; [done|].
  destruct (uninitialized addr) eqn:Hu.
  - left. by injection H as <-.
  - right. split; [done|].
    destruct (entry_at dir addr) as [err|e] eqn:Hd; simpl in H; [done|].
    destruct (chain_loop dir fuel e h) as [e'| |] eqn:Hl; simpl in H;
      [|done|done].
    apply chain_loop_Ret in Hl as (pre & HP & Hh & Hstop).
    exists e, pre, e'. split; [done|]. split; [done|]. split; [done|].
    destruct (Z.eqb_spec (CacheEntry.hash e') h) as [E|E].
    + left. by injection H as <-.
    + right. injection H as <-. destruct Hstop; [done|by repeat split].
Qed.

(** X5.  Targeted lookup works URL by URL: the result for a list of URLs
    followed by another is what the first list gives followed by what the
    second gives, entries and printed lines alike; and when the lookup of
    the first list raises, so does the lookup of the whole, and the second
    list is never looked up. *)
Theorem parse_urls_app fuel urls1 urls2 :
  (forall st1 st2,
     parse INDEX superFastHash dir fuel (Some urls1) = Ret st1 ->
     parse INDEX superFastHash dir fuel (Some urls2) = Ret st2 ->
     parse INDEX superFastHash dir fuel (Some (urls1 ++ urls2))
     = Ret {| cache := cache st1 ++ cache st2;
              stderr := stderr st1 ++ stderr st2 |}) /\
  (forall err,
     parse INDEX superFastHash dir fuel (Some urls1) = Raise err ->
     parse INDEX superFastHash dir fuel (Some (urls1 ++ urls2)) = Raise err).
Proof.
  unfold parse.
  destruct (negb (block_type dir =? INDEX)); [split; [done|by intros]|].
  rewrite for_each_app. split.
  - intros st1 st2 H1 H2. rewrite H1. simpl.
    rewrite lookup_all_frame, H2. done.
  - intros err H1. by rewrite H1.
Qed.

End LookupMore.

(** X6.  A token of 32 bits is uninitialized for targeted lookup exactly
    when it is below [2^31], that is when bit 31 is clear; the zero token,
    which full enumeration skips, is among them. *)
Theorem uninitialized_below_2_31 addr :
  0 <= addr < 2 ^ 32 ->
  (uninitialized addr = true <-> addr < 2 ^ 31) /\
  (addr = 0 -> uninitialized addr = true).
Proof.
  intros Hr. unfold uninitialized.
  assert (Z.land addr 2147483648
          = if Z.testbit addr 31 then 2147483648 else 0) as Hbit.
  { apply Z.bits_inj'. intros n Hn. rewrite Z.land_spec.
    change 2147483648 with (2 ^ 31).
    destruct (Z.eq_dec n 31) as [->|Hne].
    - rewrite Z.pow2_bits_true by lia. rewrite andb_true_r.
      destruct (Z.testbit addr 31); [by rewrite Z.pow2_bits_true|].
      by rewrite Z.bits_0.
    - rewrite Z.pow2_bits_false by lia. rewrite andb_false_r.
      destruct (Z.testbit addr 31); [by rewrite Z.pow2_bits_false|].
      by rewrite Z.bits_0. }
  assert (Z.testbit addr 31 = true <-> 2 ^ 31 <= addr) as Hhigh.
  { rewrite Z.testbit_true by lia.
    assert (addr / 2 ^ 31 = 0 \/ addr / 2 ^ 31 = 1) as [E|E].
    { assert (0 <= addr / 2 ^ 31 < 2); [|lia].
      split; [apply Z.div_pos; lia|apply Z.div_lt_upper_bound; lia]. }
    - rewrite E. split; [done|]. intros H.
      apply Z.div_small_iff in E; lia.
    - rewrite E. split; [|done]. intros _.
      destruct (Z.lt_ge_cases addr (2 ^ 31)) as [Hlt|]; [|done].
      rewrite Z.div_small in E by lia. lia. }
  split.
  - rewrite Hbit. destruct (Z.testbit addr 31) eqn:E; simpl.
    + split; [done|]. intros H. pose proof (proj1 Hhigh eq_refl). lia.
    + split; [|done]. intros _.
      destruct (Z.lt_ge_cases addr (2 ^ 31)) as [|Hge]; [done|].
      by pose proof (proj2 Hhigh Hge).
  - by intros ->.
Qed.

(** * The encoding of URLs *)

Section Utf8.

(** X7.  A URL of ASCII characters only is its own UTF-8 encoding: the
    bytes that are hashed and printed are the characters of the URL. *)
Theorem utf8_ascii s : all_chars is_ascii s = true -> utf8 s = s.
Proof.
  induction s as [|c s IH]; simpl; [done|].
  intros H. apply andb_true_iff in H as [Hc Hs].
  unfold is_ascii in Hc. rewrite Hc. by rewrite IH.
Qed.

Lemma utf8_lead_byte (n : N) :
  (128 <= n < 256)%N ->
  N_of_ascii (ascii_of_N (192 + n / 64)) = (192 + n / 64)%N /\
  N_of_ascii (ascii_of_N (128 + n mod 64)) = (128 + n mod 64)%N.
Proof.
  intros Hn.
  assert (n / 64 < 4)%N by (apply N.Div0.div_lt_upper_bound; lia).
  assert (n mod 64 < 64)%N by (apply N.mod_lt; lia).
  split; apply N_ascii_embedding; lia.
Qed.

(** X8.  The encoding is injective: two URLs with the same bytes are the
    same URL, so two URLs that select the same entry do so through their
    hash alone. *)
Theorem utf8_inj s : forall t, utf8 s = utf8 t -> s = t.
Proof.
  induction s as [|c s IH]; intros [|c' t]; simpl.
  - done.
  - destruct (N_of_ascii c' <? 128)%N; discriminate.
  - destruct (N_of_ascii c <? 128)%N; discriminate.
  - pose proof (N_ascii_bounded c) as Hc.
    pose proof (N_ascii_bounded c') as Hc'.
    destruct (N.ltb_spec (N_of_ascii c) 128) as [E|E];
      destruct (N.ltb_spec (N_of_ascii c') 128) as [E'|E'].
    + intros [= -> H]. by rewrite (IH t H).
    + intros [= -> _]. exfalso.
      destruct (utf8_lead_byte (N_of_ascii c')) as [H1 _]; [lia|].
      rewrite H1 in E. clear - E.
      generalize dependent (N_of_ascii c' / 64)%N. intros; lia.
    + intros [= <- _]. exfalso.
      destruct (utf8_lead_byte (N_of_ascii c)) as [H1 _]; [lia|].
      rewrite H1 in E'. clear - E'.
      generalize dependent (N_of_ascii c / 64)%N. intros; lia.
    + intros [= H1 H2 H].
      destruct (utf8_lead_byte (N_of_ascii c)) as [L1 L2]; [lia|].
      destruct (utf8_lead_byte (N_of_ascii c')) as [L1' L2']; [lia|].
      apply (f_equal N_of_ascii) in H1, H2.
      rewrite L1, L1' in H1. rewrite L2, L2' in H2.
      assert (N_of_ascii c = N_of_ascii c') as Hn.
      { rewrite (N.div_mod (N_of_ascii c) 64) by lia.
        rewrite (N.div_mod (N_of_ascii c') 64) by lia. lia. }
      apply (f_equal ascii_of_N) in Hn. rewrite !ascii_N_embedding in Hn.
      subst c'. by rewrite (IH t H).
Qed.

End Utf8.

(** * The normalization of keys *)

Section Normalization.

Lemma append_nil_r (a : string) : a +:+ "" = a.
Proof. induction a as [|c a IH]; [done|]. by rewrite append_cons, IH. Qed.

Lemma append_assoc (a b c : string) : (a +:+ b) +:+ c = a +:+ b +:+ c.
Proof.
  induction a as [|x a IH]; [done|]. by rewrite !append_cons, IH.
Qed.

Lemma length_append (a b : string) :
  String.length (a +:+ b) = (String.length a + String.length b)%nat.
Proof.
  induction a as [|x a IH]; [done|]. rewrite append_cons. simpl.
  by rewrite IH.
Qed.

Lemma substring_append (a b : string) :
  substring 0 (String.length a) (a +:+ b) = a.
Proof.
  induction a as [|x a IH]; [by destruct b|].
  rewrite append_cons. simpl. by rewrite IH.
Qed.

Lemma literal_spec p : forall s r,
  Re.literal p s = Some r <-> s = p +:+ r.
Proof.
  induction p as [|a p IH]; intros s r; simpl.
  - split; [by intros [= ->]|by intros ->].
  - rewrite append_cons. destruct s as [|b s].
    + split; done.
    + destruct (Ascii.eqb_spec a b) as [->|Hne].
      * rewrite IH. split; [by intros ->|by intros [= ->]].
      * split; [done|]. intros [= ]. congruence.
Qed.

Lemma dot_spec s r :
  Re.dot s = Some r <-> exists c, Re.is_newline c = false /\ s = String c r.
Proof.
  destruct s as [|c s]; simpl.
  - split; [done|]. by intros (c & _ & H).
  - destruct (Re.is_newline c) eqn:E.
    + split; [done|]. intros (c' & H & [= <- <-]). congruence.
    + split; [intros [= <-]; eauto|]. by intros (c' & H & [= <- <-]).
Qed.

Lemma digits_run d : forall r,
  all_chars Re.is_digit d = true -> no_digit_ahead r ->
  Re.digits (d +:+ r) = r.
Proof.
  induction d as [|c d IH]; intros r Hd Hr.
  - destruct r as [|c r]; [done|]. simpl in *. by rewrite Hr.
  - rewrite append_cons. simpl in *.
    apply andb_true_iff in Hd as [Hc Hd]. rewrite Hc. by apply IH.
Qed.

Lemma digits_split s :
  exists d, all_chars Re.is_digit d = true /\ s = d +:+ Re.digits s /\
            no_digit_ahead (Re.digits s).
Proof.
  induction s as [|c s (d & Hd & Hs & Hr)]; simpl.
  - by exists "".
  - destruct (Re.is_digit c) eqn:E.
    + exists (String c d). simpl. rewrite E, Hd, append_cons.
      split; [done|]. split; [congruence|done].
    + exists "". simpl. by rewrite E.
Qed.

Lemma digits1_spec s r :
  no_digit_ahead r ->
  Re.digits1 s = Some r <->
  exists d, d <> "" /\ all_chars Re.is_digit d = true /\ s = d +:+ r.
Proof.
  intros Hr. destruct s as [|c s]; simpl.
  - split; [done|]. intros (d & Hne & _ & H). destruct d; [done|].
    by rewrite append_cons in H.
  - destruct (Re.is_digit c) eqn:E.
    + split.
      * intros [= <-]. destruct (digits_split s) as (d & Hd & Hs & _).
        exists (String c d). simpl. rewrite E, Hd, append_cons.
        split; [done|]. split; [done|congruence].
      * intros (d & Hne & Hd & H). destruct d as [|c' d]; [done|].
        rewrite append_cons in H. injection H as <- ->. simpl in Hd.
        apply andb_true_iff in Hd as [_ Hd]. by rewrite digits_run.
    + split; [done|]. intros (d & Hne & Hd & H).
      destruct d as [|c' d]; [done|].
      rewrite append_cons in H. injection H as <- ->. simpl in Hd.
      apply andb_true_iff in Hd as [Hc _]. congruence.
Qed.

(** Group 1 matches exactly the keys that start with a story prefix. *)
Lemma group1_spec key g s :
  Re.group1 key = Some (g, s) <->
  exists c1 c2 story chapter,
    Re.is_newline c1 = false /\ Re.is_newline c2 = false /\
    story <> "" /\ all_chars Re.is_digit story = true /\
    chapter <> "" /\ all_chars Re.is_digit chapter = true /\
    g = story_prefix c1 c2 story chapter /\ key = g +:+ s.
Proof.
  unfold Re.group1. split.
  - intros H.
    apply bind_Some in H as (s1 & H1 & H). apply bind_Some in H as (s2 & H2 & H).
    apply bind_Some in H as (s3 & H3 & H). apply bind_Some in H as (s4 & H4 & H).
    apply bind_Some in H as (s5 & H5 & H). apply bind_Some in H as (s6 & H6 & H).
    apply bind_Some in H as (s7 & H7 & H). apply bind_Some in H as (s8 & H8 & H).
    apply bind_Some in H as (s9 & H9 & H). injection H as <- <-.
    apply literal_spec in H1, H3, H5, H7, H9.
    apply dot_spec in H2 as (c1 & Hc1 & ->), H4 as (c2 & Hc2 & ->).
    subst s6 s8.
    apply digits1_spec in H6 as (story & Hs1 & Hs2 & ->); [|done].
    apply digits1_spec in H8 as (chapter & Hp1 & Hp2 & ->); [|done].
    exists c1, c2, story, chapter. do 6 (split; [done|]).
    assert (key = story_prefix c1 c2 story chapter +:+ s9) as ->.
    { rewrite H1, H3, H5. unfold story_prefix.
      by repeat (rewrite append_assoc || rewrite append_cons). }
    rewrite length_append, Nat.add_sub, substring_append. done.
  - intros (c1 & c2 & story & chapter & Hc1 & Hc2 & Hs1 & Hs2 & Hp1 & Hp2
            & -> & ->).
    assert (story_prefix c1 c2 story chapter +:+ s
            = "https://www" +:+ String c1 ("fanfiction" +:+ String c2
                ("net/s/" +:+ story +:+ "/" +:+ chapter +:+ "/" +:+ s)))
      as Hkey.
    { unfold story_prefix.
      by repeat (rewrite append_assoc || rewrite append_cons). }
    apply bind_Some. eexists. split; [by apply literal_spec|].
    apply bind_Some. eexists. split; [apply dot_spec; eauto|].
    apply bind_Some. eexists. split; [by apply literal_spec|].
    apply bind_Some. eexists. split; [apply dot_spec; eauto|].
    apply bind_Some. eexists. split; [by apply literal_spec|].
    apply bind_Some. exists ("/" +:+ chapter +:+ "/" +:+ s).
    split; [apply digits1_spec; [done|by exists story]|].
    apply bind_Some. eexists. split; [by apply literal_spec|].
    apply bind_Some. exists ("/" +:+ s).
    split; [apply digits1_spec; [done|by exists chapter]|].
    apply bind_Some. eexists. split; [by apply literal_spec|].
    f_equal. f_equal.
    rewrite length_append, Nat.add_sub. apply substring_append.
Qed.

End Normalization.

Section SubStory.

Lemma dots_end_run body tail :
  all_chars (fun c => negb (Re.is_newline c)) body = true ->
  tail = "" \/ tail = newline ->
  Re.dots_end (body +:+ tail) = Some tail.
Proof.
  intros Hb Ht. induction body as [|c body IH].
  - by destruct Ht as [->| ->].
  - rewrite append_cons. simpl in *.
    apply andb_true_iff in Hb as [Hc Hb].
    apply negb_true_iff in Hc. rewrite Hc. by apply IH.
Qed.

Lemma dots_end_Some s : forall tail,
  Re.dots_end s = Some tail ->
  exists body,
    all_chars (fun c => negb (Re.is_newline c)) body = true /\
    s = body +:+ tail /\ (tail = "" \/ tail = newline).
Proof.
  induction s as [|c s IH]; intros tail; simpl.
  - intros [= <-]. exists "". auto.
  - destruct (Re.is_newline c) eqn:E.
    + destruct s; [|done]. intros [= <-]. exists "".
      split; [done|]. split; [done|]. right.
      unfold Re.is_newline in E. apply Ascii.eqb_eq in E. by subst c.
    + intros H. apply IH in H as (body & Hb & -> & Ht).
      exists (String c body). simpl. by rewrite E, Hb.
Qed.

Lemma dots1_end_tail tail :
  tail = "" \/ tail = newline -> Re.dots1_end tail = None.
Proof. by intros [->| ->]. Qed.

(** The keys that the normalization changes, and what it makes of them. *)
Lemma sub_story_cases key :
  (Re.sub_story key = key /\
   forall g s, Re.group1 key = Some (g, s) -> Re.dots1_end s = None) \/
  exists g c body tail,
    Re.group1 key = Some (g, String c body +:+ tail) /\
    Re.is_newline c = false /\
    all_chars (fun c => negb (Re.is_newline c)) body = true /\
    (tail = "" \/ tail = newline) /\
    key = g +:+ String c body +:+ tail /\
    Re.sub_story key = g +:+ tail.
Proof.
  unfold Re.sub_story.
  destruct (Re.group1 key) as [[g s]|] eqn:Hg; [|left; split; [done|]; done].
  destruct (Re.dots1_end s) as [tail|] eqn:Hd.
  - right. unfold Re.dots1_end in Hd.
    apply bind_Some in Hd as (s' & Hdot & Hd).
    apply dot_spec in Hdot as (c & Hc & ->).
    apply dots_end_Some in Hd as (body & Hb & -> & Ht).
    exists g, c, body, tail. rewrite <- append_cons.
    repeat split; try done.
    apply group1_spec in Hg as (? & ? & ? & ? & _ & _ & _ & _ & _ & _ & _ & H).
    by rewrite H, append_cons.
  - left. split; [done|]. by intros g' s' [= <- <-].
Qed.

(** X9.  A key that is a story prefix followed by a title of at least one
    character, none of them a newline, is normalized to the story prefix;
    a newline that ends the key is kept after the prefix. *)
Theorem sub_story_drops_title c1 c2 story chapter title tail :
  Re.is_newline c1 = false -> Re.is_newline c2 = false ->
  story <> "" -> all_chars Re.is_digit story = true ->
  chapter <> "" -> all_chars Re.is_digit chapter = true ->
  title <> "" ->
  all_chars (fun c => negb (Re.is_newline c)) title = true ->
  tail = "" \/ tail = newline ->
  Re.sub_story (story_prefix c1 c2 story chapter +:+ title +:+ tail)
  = story_prefix c1 c2 story chapter +:+ tail.
Proof.
  intros Hc1 Hc2 Hs1 Hs2 Hp1 Hp2 Hne Ht Htail. unfold Re.sub_story.
  rewrite (proj2 (group1_spec _ (story_prefix c1 c2 story chapter)
                    (title +:+ tail)));
    [|by exists c1, c2, story, chapter].
  destruct title as [|c title]; [done|]. simpl in Ht.
  apply andb_true_iff in Ht as [Hc Ht]. apply negb_true_iff in Hc.
  unfold Re.dots1_end. rewrite append_cons. simpl. rewrite Hc. simpl.
  by rewrite dots_end_run.
Qed.

(** X10.  Normalizing twice is normalizing once: the key under which an
    entry is indexed in normalized form is its own normalized form. *)
Theorem sub_story_idempotent key :
  Re.sub_story (Re.sub_story key) = Re.sub_story key.
Proof.
  destruct (sub_story_cases key)
    as [[H _]|(g & c & body & tail & Hg & _ & _ & Ht & _ & ->)];
    [by rewrite !H|].
  apply group1_spec in Hg
    as (c1 & c2 & story & chapter & ? & ? & ? & ? & ? & ? & -> & _).
  unfold Re.sub_story.
  rewrite (proj2 (group1_spec _ (story_prefix c1 c2 story chapter) tail));
    [|by exists c1, c2, story, chapter].
  by rewrite dots1_end_tail.
Qed.

(** X11.  The normalization changes a key only when the key starts with
    [https://www], and then the normalized key is shorter than the key.
    An entry whose key contains [fanfiction.net] and does not start with
    [https://www] is indexed under its full key only: indexing it is one
    assignment to the dictionary. *)
Theorem sub_story_changes_https_only key :
  (Re.sub_story key <> key ->
   String.prefix "https://www" key = true /\
   (String.length (Re.sub_story key) < String.length key)%nat) /\
  (String.prefix "https://www" key = false ->
   forall (m : gmap string CacheEntry.t) e,
     CacheEntry.keyToStr e = key ->
     contains "fanfiction.net" key = true ->
     index_entry m e = <[key := e]> m).
Proof.
  assert (Re.sub_story key <> key ->
          String.prefix "https://www" key = true /\
          (String.length (Re.sub_story key) < String.length key)%nat)
    as Hchange.
  { intros Hne.
    destruct (sub_story_cases key)
      as [[H _]|(g & c & body & tail & Hg & _ & _ & Ht & Hkey & Hsub)];
      [done|].
    split.
    - apply group1_spec in Hg
        as (c1 & c2 & story & chapter & _ & _ & _ & _ & _ & _ & -> & ->).
      apply prefix_spec. unfold story_prefix. eexists.
      by rewrite append_assoc.
    - rewrite Hsub, Hkey.
      rewrite !length_append. simpl. lia. }
  split; [exact Hchange|].
  intros Hp m e Hkey Hc. unfold index_entry. rewrite Hkey, Hc. simpl.
  destruct (String.eqb_spec (Re.sub_story key) key) as [->|Hne].
  - apply insert_insert_eq.
  - destruct (Hchange Hne) as [Hp' _]. congruence.
Qed.

(** Where the character before [net] is the dot that the pattern of line
    148 writes, the normalized key contains [fanfiction.net]: a
    normalized key without it comes from a key with another character in
    that place. *)
Lemma story_prefix_dot_contains c1 story chapter tail :
  contains "fanfiction.net" (story_prefix c1 "." story chapter +:+ tail)
  = true.
Proof.
  apply contains_spec.
  exists ("https://www" +:+ String c1 ""),
         ("/s/" +:+ story +:+ "/" +:+ chapter +:+ "/" +:+ tail).
  unfold story_prefix.
  by repeat (rewrite append_assoc || rewrite append_cons).
Qed.

End SubStory.

(** * Further properties of the URL index and of the body accessor *)

Section IndexMore.

Lemma fold_index_filter cache : forall m,
  fold_left index_entry cache m
  = fold_left index_entry
      (List.filter (fun e => contains "fanfiction.net" (CacheEntry.keyToStr e))
         cache) m.
Proof.
  induction cache as [|e cache IH]; intros m; simpl; [done|].
  destruct (contains "fanfiction.net" (CacheEntry.keyToStr e)) eqn:E; simpl.
  - apply IH.
  - rewrite <- IH. unfold index_entry at 2. by rewrite E.
Qed.

(** X12.  The index depends only on the entries whose key contains
    [fanfiction.net]: building it from the whole parsed list or from
    those entries alone gives the same index. *)
Theorem build_hash_cache_ignores_other_sites cache :
  build_hash_cache cache
  = build_hash_cache
      (List.filter (fun e => contains "fanfiction.net" (CacheEntry.keyToStr e))
         cache).
Proof. apply fold_index_filter. Qed.

Lemma index_entry_own_keys m e k :
  contains "fanfiction.net" (CacheEntry.keyToStr e) = true ->
  k = CacheEntry.keyToStr e \/ k = Re.sub_story (CacheEntry.keyToStr e) ->
  index_entry m e !! k = Some e.
Proof.
  intros Hc Hk. unfold index_entry. rewrite Hc. simpl.
  rewrite lookup_insert. case_decide as E1; [done|].
  destruct Hk as [->| ->]; [|done]. by rewrite lookup_insert_eq.
Qed.

Lemma fold_index_untouched post k : forall m,
  (forall x, x ∈ post ->
     contains "fanfiction.net" (CacheEntry.keyToStr x) = true ->
     CacheEntry.keyToStr x <> k /\ Re.sub_story (CacheEntry.keyToStr x) <> k) ->
  fold_left index_entry post m !! k = m !! k.
Proof.
  induction post as [|x post IH]; intros m Hpost; simpl; [done|].
  rewrite IH by (intros y Hy; apply Hpost; by apply list_elem_of_further).
  unfold index_entry.
  destruct (contains "fanfiction.net" (CacheEntry.keyToStr x)) eqn:E;
    simpl; [|done].
  destruct (Hpost x (list_elem_of_here _ _) E) as [H1 H2].
  by rewrite !lookup_insert_ne.
Qed.

Lemma build_hash_cache_last before e after k :
  contains "fanfiction.net" (CacheEntry.keyToStr e) = true ->
  k = CacheEntry.keyToStr e \/ k = Re.sub_story (CacheEntry.keyToStr e) ->
  (forall x, x ∈ after ->
     contains "fanfiction.net" (CacheEntry.keyToStr x) = true ->
     CacheEntry.keyToStr x <> k /\ Re.sub_story (CacheEntry.keyToStr x) <> k) ->
  build_hash_cache (before ++ e :: after) !! k = Some e.
Proof.
  intros Hc Hk Hafter. unfold build_hash_cache.
  rewrite fold_left_app. simpl.
  rewrite fold_index_untouched by done. by apply index_entry_own_keys.
Qed.

(** X13.  The last writer wins: the index holds under a key [k] the last
    entry of the parsed list that is indexed under [k], be it as its full
    key or as its normalized key; earlier entries under [k] are
    overwritten. *)
Theorem index_keeps_last_entry before e after k :
  contains "fanfiction.net" (CacheEntry.keyToStr e) = true ->
  k = CacheEntry.keyToStr e \/ k = Re.sub_story (CacheEntry.keyToStr e) ->
  (forall x, x ∈ after ->
     contains "fanfiction.net" (CacheEntry.keyToStr x) = true ->
     CacheEntry.keyToStr x <> k /\ Re.sub_story (CacheEntry.keyToStr x) <> k) ->
  build_hash_cache (before ++ e :: after) !! k = Some e /\
  forall gz br self,
    ChromeCache.hash_cache self = build_hash_cache (before ++ e :: after) ->
    get_cached_file gz br self k
    = first_unknown gz br e (CacheEntry.data e).
Proof.
  intros Hc Hk Hafter.
  pose proof (build_hash_cache_last before e after k Hc Hk Hafter) as H.
  split; [done|]. intros gz br self Hself.
  unfold get_cached_file. by rewrite Hself, H.
Qed.

End IndexMore.

Section AccessorMore.

Variable gzip_decompress : bytes -> pyexn + bytes.
Variable brotli : bytes -> pyexn + bytes.

(** X14.  An indexed entry none of whose streams has type [UNKNOWN] (an
    entry with headers only) gives [None], as a URL that is not indexed
    does; nothing is raised or printed. *)
Theorem get_cached_file_without_body self url entry :
  ChromeCache.hash_cache self !! url = Some entry ->
  Forall (fun x => CacheData.type x <> CacheData.UNKNOWN)
    (CacheEntry.data entry) ->
  get_cached_file gzip_decompress brotli self url = ([], inr None).
Proof.
  intros Hl Hd. unfold get_cached_file. rewrite Hl.
  rewrite <- (app_nil_r (CacheEntry.data entry)).
  by rewrite first_unknown_skip.
Qed.

(** X15.  When the body is declared [gzip] and [gzip.decompress] returns,
    [get_cached_file] returns the decompressed bytes and prints nothing;
    when it is declared [br] and the Brotli decoder returns, it returns
    the decompressed bytes after the timing line is printed. *)
Theorem get_cached_file_decodes_body self url entry d raw plain :
  ChromeCache.hash_cache self !! url = Some entry ->
  body_stream entry d raw ->
  (content_encoding entry = Some "gzip" ->
   gzip_decompress raw = inr plain ->
   get_cached_file gzip_decompress brotli self url = ([], inr (Some plain))) /\
  (content_encoding entry = Some "br" ->
   brotli raw = inr plain ->
   get_cached_file gzip_decompress brotli self url
   = ([time_line], inr (Some plain))).
Proof.
  intros Hl Hb.
  rewrite (get_body _ _ _ _ _ _ _ Hl Hb), transport_decode_encoding.
  split; intros -> Hok; simpl; unfold brotli_decompress; by rewrite Hok.
Qed.

(** X16.  When reading the first stream of type [UNKNOWN] raises,
    [get_cached_file] raises the same exception, whatever the encoding
    and whatever the later streams; no decoder is called and nothing is
    printed. *)
Theorem get_cached_file_raises_on_unreadable_stream
    self url entry before d after err :
  ChromeCache.hash_cache self !! url = Some entry ->
  CacheEntry.data entry = before ++ d :: after ->
  Forall (fun x => CacheData.type x <> CacheData.UNKNOWN) before ->
  CacheData.type d = CacheData.UNKNOWN ->
  CacheData.data d = inl err ->
  get_cached_file gzip_decompress brotli self url = ([], inl err).
Proof.
  intros Hl Hd Hb Ht Herr. unfold get_cached_file.
  rewrite Hl, Hd, first_unknown_skip by done.
  simpl. by rewrite decide_True, Herr.
Qed.

End AccessorMore.

(** * The names of exported pages *)

Section PageNames.

Lemma split_cons sep s : exists piece pieces, split sep s = piece :: pieces.
Proof.
  destruct s as [|c s]; simpl; [eauto|].
  destruct (Ascii.eqb c sep); [eauto|]. destruct (split sep s); eauto.
Qed.

Lemma endswith_snoc s c : endswith (s +:+ String c "") c = true.
Proof.
  induction s as [|x s IH]; [apply Ascii.eqb_refl|].
  rewrite append_cons. simpl.
  destruct (s +:+ String c "") eqn:E; [by destruct s|done].
Qed.

Lemma endswith_inv s c :
  endswith s c = true -> exists s', s = s' +:+ String c "".
Proof.
  induction s as [|x s IH]; simpl; [done|].
  destruct s as [|y s].
  - intros E. apply Ascii.eqb_eq in E as ->. by exists "".
  - intros E. destruct (IH E) as [s' Hs']. exists (String x s').
    by rewrite append_cons, <- Hs'.
Qed.

Lemma endswith_cons x s c :
  endswith s c = true -> endswith (String x s) c = true.
Proof. by destruct s. Qed.

Lemma split_snoc_sep sep s :
  split sep (s +:+ String sep "") = split sep s ++ [""].
Proof.
  induction s as [|c s IH].
  - simpl. by rewrite Ascii.eqb_refl.
  - rewrite append_cons. simpl. rewrite IH.
    destruct (Ascii.eqb c sep); [done|].
    by destruct (split_cons sep s) as (p & ps & ->).
Qed.

Lemma split_no_sep sep s :
  all_chars (fun c => negb (Ascii.eqb c sep)) s = true -> split sep s = [s].
Proof.
  induction s as [|c s IH]; simpl; [done|].
  intros H. apply andb_true_iff in H as [Hc Hs].
  apply negb_true_iff in Hc. by rewrite Hc, IH.
Qed.

Lemma split_single sep s : forall p, split sep s = [p] -> s = p.
Proof.
  induction s as [|c s IH]; intros p; simpl; [by intros [= <-]|].
  destruct (Ascii.eqb c sep).
  - destruct (split_cons sep s) as (q & qs & ->). done.
  - destruct (split_cons sep s) as (q & qs & E). rewrite E.
    intros [= <- ->]. by rewrite (IH q).
Qed.

(** The last piece of a string ends the string, holds no separator, and
    what precedes it is empty or ends with a separator. *)
Lemma split_last sep s :
  exists before,
    s = before +:+ List.last (split sep s) "" /\
    (before = "" \/ endswith before sep = true) /\
    all_chars (fun c => negb (Ascii.eqb c sep)) (List.last (split sep s) "")
    = true.
Proof.
  induction s as [|c s (before & Hs & Hb & Hl)]; simpl.
  - exists "". auto.
  - destruct (Ascii.eqb_spec c sep) as [->|Hne].
    + destruct (split_cons sep s) as (p & ps & E). rewrite E in *.
      exists (String sep before).
      change (List.last ("" :: p :: ps) "") with (List.last (p :: ps) "").
      rewrite append_cons, <- Hs.
      split; [done|]. split; [|done]. right.
      destruct Hb as [->|Hb]; [apply Ascii.eqb_refl|].
      by apply endswith_cons.
    + destruct (split sep s) as [|p [|p' ps]] eqn:E.
      * destruct (split_cons sep s) as (q & qs & ?). congruence.
      * exists "". simpl in *. apply split_single in E as ->.
        split; [done|]. split; [by left|].
        by rewrite Hl, (proj2 (Ascii.eqb_neq c sep)).
      * exists (String c before). rewrite append_cons.
        change (List.last (String c p :: p' :: ps) "")
          with (List.last (p :: p' :: ps) "").
        rewrite <- Hs. split; [done|]. split; [|done]. right.
        destruct Hb as [->|Hb]; [|by apply endswith_cons].
        exfalso. change (s = List.last (p :: p' :: ps) "") in Hs.
        rewrite <- Hs in Hl.
        apply split_no_sep in Hl. congruence.
Qed.

Lemma from_end_1 {A : Type} (l : list A) (x : A) :
  from_end (l ++ [x]) 1 = inr x.
Proof.
  unfold from_end. rewrite length_app. simpl.
  destruct (Nat.ltb_spec (length l + 1) 1); [lia|].
  by rewrite list_lookup_middle by lia.
Qed.

Lemma from_end_2 {A : Type} (l : list A) (y x : A) :
  from_end (l ++ [y; x]) 2 = inr y.
Proof.
  unfold from_end. rewrite length_app. simpl.
  destruct (Nat.ltb_spec (length l + 2) 2); [lia|].
  by rewrite list_lookup_middle by lia.
Qed.

Lemma last_snoc_inv {A : Type} (l : list A) (d : A) :
  l <> [] -> exists l', l = l' ++ [List.last l d].
Proof.
  intros Hne. destruct l as [|y l] using rev_ind; [done|].
  exists l. by rewrite last_last.
Qed.

(** X17.  The text of the link of an exported page is computed without an
    exception, whatever the name of the entry: the index [-2] is taken
    only of a name that ends with [/], which splits into two pieces at
    least.  The text is the last component of the name: it holds no [/],
    it ends the name (before the final [/] when there is one), and what
    precedes it is empty or ends with [/]. *)
Theorem page_basename_is_last_component keyLength key :
  let name := entry_name keyLength key in
  exists before base,
    page_basename name = inr base /\
    all_chars (fun c => negb (Ascii.eqb c "/")) base = true /\
    name = before +:+ base +:+ (if endswith name "/" then "/" else "") /\
    (before = "" \/ endswith before "/" = true).
Proof.
  intros name. generalize name. clear. intros name.
  unfold page_basename. destruct (endswith name "/") eqn:E.
  - apply endswith_inv in E as [s ->].
    destruct (split_last "/" s) as (before & Hs & Hb & Hl).
    exists before, (List.last (split "/" s) "").
    rewrite split_snoc_sep.
    destruct (last_snoc_inv (split "/" s) "") as [l' Hl'].
    { destruct (split_cons "/" s) as (p & ps & ->). done. }
    rewrite Hl' at 1. rewrite <- app_assoc. simpl.
    rewrite from_end_2. split; [done|]. split; [done|].
    split; [|done]. by rewrite <- append_assoc, <- Hs.
  - destruct (split_last "/" name) as (before & Hs & Hb & Hl).
    exists before, (List.last (split "/" name) "").
    destruct (last_snoc_inv (split "/" name) "") as [l' Hl'].
    { destruct (split_cons "/" name) as (p & ps & ->). done. }
    rewrite Hl' at 1. rewrite from_end_1.
    split; [done|]. split; [done|]. split; [|done].
    by rewrite append_nil_r.
Qed.

End PageNames.

(** * Invariants of targeted lookup, and the whole path *)

Section Whole.

Variable INDEX : Z.
Variable superFastHash : bytes -> Z.
Variable dir : snapshot.

Lemma lookup_url_step fuel st url st' :
  lookup_url superFastHash dir fuel st url = Ret st' ->
  (cache st' = cache st /\ stderr st' = stderr st ++ [utf8 url]) \/
  (exists e, CacheEntry.hash e = superFastHash (utf8 url) /\
             cache st' = cache st ++ [e] /\ stderr st' = stderr st) \/
  st' = st.
Proof.
  unfold lookup_url.
  destruct (read_word dir _) as [addr| |]; simpl; [|done|done].
  destruct (uninitialized addr); simpl; [by intros [= <-]; left|].
  destruct (entry_at dir addr) as [err|e]; simpl; [done|].
  destruct (chain_loop dir fuel e _) as [e'| |]; simpl; [|done|done].
  destruct (Z.eqb_spec (CacheEntry.hash e') (superFastHash (utf8 url))).
  - intros [= <-]. right. left. by exists e'.
  - intros [= <-]. by right; right.
Qed.

(** X18.  Whenever targeted lookup returns: every entry returned has the
    hash of one of the requested URLs; every line printed is the bytes of
    one of them; and entries and lines together are no more than the
    URLs, each URL adding one entry, one line, or nothing. *)
Theorem parse_urls_invariant fuel urls st :
  parse INDEX superFastHash dir fuel (Some urls) = Ret st ->
  Forall (fun e => exists url,
            url ∈ urls /\ CacheEntry.hash e = superFastHash (utf8 url))
    (cache st) /\
  Forall (fun line => exists url, url ∈ urls /\ line = utf8 url) (stderr st) /\
  (length (cache st) + length (stderr st) <= length urls)%nat.
Proof.
  unfold parse. destruct (negb (block_type dir =? INDEX)); [done|].
  assert (forall done_urls st0,
    Forall (fun e => exists url, url ∈ done_urls ++ urls /\
              CacheEntry.hash e = superFastHash (utf8 url)) (cache st0) ->
    Forall (fun line => exists url, url ∈ done_urls ++ urls /\
              line = utf8 url) (stderr st0) ->
    (length (cache st0) + length (stderr st0) <= length done_urls)%nat ->
    for_each (lookup_url superFastHash dir fuel) urls st0 = Ret st ->
    Forall (fun e => exists url, url ∈ done_urls ++ urls /\
              CacheEntry.hash e = superFastHash (utf8 url)) (cache st) /\
    Forall (fun line => exists url, url ∈ done_urls ++ urls /\
              line = utf8 url) (stderr st) /\
    (length (cache st) + length (stderr st)
     <= length done_urls + length urls)%nat) as Hgen.
  { clear. induction urls as [|url urls IH]; intros done_urls st0 Hc He Hn;
      simpl.
    - intros [= <-]. split; [done|]. split; [done|lia].
    - destruct (lookup_url superFastHash dir fuel st0 url) as [st1| |] eqn:E;
        simpl; [|done|done].
      intros H.
      replace (done_urls ++ url :: urls) with ((done_urls ++ [url]) ++ urls)
        in * by (by rewrite <- app_assoc).
      replace (length done_urls + S (length urls))%nat
        with (length (done_urls ++ [url]) + length urls)%nat
        by (rewrite length_app; simpl; lia).
      apply (IH (done_urls ++ [url]) st1); [| | |done].
      + apply lookup_url_step in E as [[-> _]|[(e & Hh & -> & _)| ->]];
          [done| |done].
        apply Forall_app. split; [done|]. repeat constructor.
        exists url. split; [|done].
        apply elem_of_app. left. apply elem_of_app. right.
        apply list_elem_of_here.
      + apply lookup_url_step in E as [[_ ->]|[(e & Hh & _ & ->)| ->]];
          [|done|done].
        apply Forall_app. split; [done|]. repeat constructor.
        exists url. split; [|done].
        apply elem_of_app. left. apply elem_of_app. right.
        apply list_elem_of_here.
      + rewrite length_app. simpl.
        apply lookup_url_step in E as [[-> ->]|[(e & Hh & -> & ->)| ->]];
          rewrite ?length_app; simpl; lia. }
  intros H. by apply (Hgen [] {| cache := []; stderr := [] |}).
Qed.

(** X19.  A file whose type is not that of an index file is rejected
    before anything is read from the table: [parse] raises [Exception]
    in both modes, and so does the construction of a [ChromeCache]. *)
Theorem parse_rejects_other_files fuel urls :
  block_type dir <> INDEX ->
  parse INDEX superFastHash dir fuel urls = Raise (PyExn "Exception") /\
  ChromeCache.init INDEX superFastHash dir fuel = Raise (PyExn "Exception").
Proof.
  intros Hty. unfold ChromeCache.init, parse.
  by destruct (Z.eqb_spec (block_type dir) INDEX).
Qed.

(** X20.  From the cache directory to the bytes: when the buckets of the
    index hold well-formed chains, a [ChromeCache] is built whose list is
    the concatenation of the chains; and for a key [k] under which the
    entry [e] is the last one indexed, whose body is not declared [gzip]
    or [br], [get_cached_file] returns the bytes of the body stream of
    [e]. *)
Theorem cached_page_is_served
    gz br fuel heads chains before e after k d raw :
  block_type dir = INDEX ->
  length heads = Z.to_nat (tableSize dir) ->
  table_from dir 0 heads ->
  Forall2 (Bucket dir) heads chains ->
  Forall (fun es => (length es <= S fuel)%nat) chains ->
  concat chains = before ++ e :: after ->
  contains "fanfiction.net" (CacheEntry.keyToStr e) = true ->
  k = CacheEntry.keyToStr e \/ k = Re.sub_story (CacheEntry.keyToStr e) ->
  (forall x, x ∈ after ->
     contains "fanfiction.net" (CacheEntry.keyToStr x) = true ->
     CacheEntry.keyToStr x <> k /\ Re.sub_story (CacheEntry.keyToStr x) <> k) ->
  body_stream e d raw ->
  content_encoding e <> Some "gzip" ->
  content_encoding e <> Some "br" ->
  exists self,
    ChromeCache.init INDEX superFastHash dir fuel = Ret self /\
    ChromeCache.cache self = concat chains /\
    get_cached_file gz br self k = ([], inr (Some raw)).
Proof.
  intros Hty Hlen Ht Hb Hfuel Hcat Hc Hk Hafter Hbody Hg Hbr.
  exists {| ChromeCache.cache := concat chains;
            ChromeCache.hash_cache := build_hash_cache (concat chains) |}.
  split; [|split; [done|]].
  - unfold ChromeCache.init, parse, range.
    rewrite Hty, Z.eqb_refl. simpl. rewrite <- Hlen.
    by rewrite (enumerate_buckets dir fuel heads chains Hb Hfuel 0%nat [] Ht).
  - rewrite (get_body gz br _ k e d raw); [|simpl; rewrite Hcat;
      by apply build_hash_cache_last|done].
    rewrite transport_decode_encoding.
    destruct (content_encoding e) as [encoding|]; [|done].
    destruct (String.eqb_spec encoding "gzip") as [->|_]; [done|].
    destruct (String.eqb_spec encoding "br") as [->|_]; done.
Qed.

End Whole.

(** X21.  A table of size 0 or less is an empty table for full
    enumeration, which returns the empty list without reading a head
    token or decoding an entry; for targeted lookup a table of size 0
    makes the mask [-1], and the bucket index is the hash itself. *)
Theorem empty_table INDEX superFastHash dir fuel :
  block_type dir = INDEX ->
  tableSize dir <= 0 ->
  parse INDEX superFastHash dir fuel None
  = Ret {| cache := []; stderr := [] |} /\
  (tableSize dir = 0 -> forall hash, bucket_index hash (tableSize dir) = hash).
Proof.
  intros Hty Hts. split.
  - unfold parse, range. rewrite Hty, Z.eqb_refl. simpl.
    by replace (Z.to_nat (tableSize dir)) with 0%nat by lia.
  - intros -> hash. unfold bucket_index. simpl. apply Z.land_m1_r.
Qed.

(** * The further properties on the example caches *)

Lemma truncated_table : table_from Sample.truncated 0 [0; 0x90000003].
Proof.
  intros k raw Hk.
  do 2 (destruct k as [|k]; [by injection Hk as <-|]). done.
Qed.

Lemma truncated_buckets :
  Forall2 (Bucket Sample.truncated) [0; 0x90000003] [[]; [e3]].
Proof.
  repeat constructor. exists e3, [], e3. repeat split. constructor.
Qed.

Lemma library_table :
  table_from library 0
    [0x90000001; 0; 0x90000002; 0x90000003; 0; 0x90000004; 0x90000005; 0].
Proof.
  intros k raw Hk.
  do 8 (destruct k as [|k]; [by injection Hk as <-|]). done.
Qed.

Lemma page_chain raw key encoding body :
  entry_at library raw = inr (page key encoding body) ->
  Chain library raw [page key encoding body].
Proof.
  intros H. exists (page key encoding body), [], (page key encoding body).
  repeat split; [done|constructor].
Qed.

Lemma library_buckets :
  Forall2 (Bucket library)
    [0x90000001; 0; 0x90000002; 0x90000003; 0; 0x90000004; 0x90000005; 0]
    [[gzip_page]; []; [br_page]; [deflate_page]; []; [odd_page];
     [other_page]; []].
Proof. repeat constructor; by apply page_chain. Qed.

Lemma lookup_reads_inside_table_witness :
  0 <= bucket_index (hash_of (utf8 "http://b/")) (tableSize scenario) < 4 /\
  exists addr,
    read_word scenario
      (bucket_index (hash_of (utf8 "http://b/")) (tableSize scenario))
    = Ret addr.
Proof.
  apply (lookup_reads_inside_table hash_of scenario "http://b/").
  - simpl. lia.
  - simpl. lia.
Defined.

Lemma parse_raises_on_truncated_index_witness :
  parse INDEX hash_of Sample.truncated 0 None = Raise (PyExn "struct.error").
Proof.
  apply (parse_raises_on_truncated_index INDEX hash_of Sample.truncated 0
           [0; 0x90000003] [[]; [e3]]).
  - reflexivity.
  - apply truncated_table.
  - simpl. lia.
  - simpl. lia.
  - apply truncated_buckets.
  - repeat constructor; simpl; lia.
Defined.

Lemma parse_enumeration_sound_witness :
  block_type scenario = INDEX /\
  exists heads chains,
    length heads = Z.to_nat (tableSize scenario) /\
    table_from scenario 0 heads /\
    Forall2 (Bucket scenario) heads chains /\
    {| cache := [e1; e2; e3]; stderr := [] |}
    = {| cache := concat chains; stderr := [] |}.
Proof.
  apply (parse_enumeration_sound INDEX hash_of scenario 2
           {| cache := [e1; e2; e3]; stderr := [] |}).
  reflexivity.
Defined.

Lemma lookup_url_Ret_witness :
  exists addr,
    read_word scenario
      (bucket_index (hash_of (utf8 "http://b/")) (tableSize scenario))
    = Ret addr /\
    ((uninitialized addr = true /\
      {| cache := [e2]; stderr := [] |}
      = {| cache := []; stderr := [] ++ [utf8 "http://b/"] |}) \/
     (uninitialized addr = false /\
      exists e pre e',
        entry_at scenario addr = inr e /\ Path scenario e pre e' /\
        Forall (fun x => CacheEntry.hash x <> hash_of (utf8 "http://b/")) pre /\
        ((CacheEntry.hash e' = hash_of (utf8 "http://b/") /\
          {| cache := [e2]; stderr := [] |}
          = {| cache := [] ++ [e']; stderr := [] |}) \/
         (CacheEntry.hash e' <> hash_of (utf8 "http://b/") /\
          CacheEntry.next e' = 0 /\
          {| cache := [e2]; stderr := [] |}
          = {| cache := []; stderr := [] |})))).
Proof.
  apply (lookup_url_Ret hash_of scenario 1 {| cache := []; stderr := [] |}
           "http://b/" {| cache := [e2]; stderr := [] |}).
  reflexivity.
Defined.

Lemma parse_urls_app_witness :
  parse INDEX hash_of scenario 1 (Some (["http://b/"] ++ ["http://a/"]))
  = Ret {| cache := [e2] ++ []; stderr := [] ++ ["http://a/"] |}.
Proof.
  apply (proj1 (parse_urls_app INDEX hash_of scenario 1
                  ["http://b/"] ["http://a/"])
           {| cache := [e2]; stderr := [] |}
           {| cache := []; stderr := ["http://a/"] |});
    reflexivity.
Defined.

Lemma uninitialized_below_2_31_witness :
  (uninitialized 0x10000001 = true <-> 0x10000001 < 2 ^ 31) /\
  (uninitialized 0x90000001 = true <-> 0x90000001 < 2 ^ 31).
Proof.
  split.
  - apply (uninitialized_below_2_31 0x10000001). lia.
  - apply (uninitialized_below_2_31 0x90000001). lia.
Defined.

Lemma utf8_ascii_witness :
  utf8 "https://www.fanfiction.net/s/1/1/A"
  = "https://www.fanfiction.net/s/1/1/A".
Proof. apply utf8_ascii. reflexivity. Defined.

Lemma utf8_inj_witness : "http://a/" = "http://a/".
Proof. apply (utf8_inj "http://a/" "http://a/"). reflexivity. Defined.

Lemma sub_story_drops_title_witness :
  Re.sub_story (story_prefix "." "." "7" "12" +:+ "Title" +:+ newline)
  = story_prefix "." "." "7" "12" +:+ newline.
Proof.
  apply (sub_story_drops_title "." "." "7" "12" "Title" newline);
    try reflexivity; try discriminate.
  by right.
Defined.

Lemma sub_story_changes_https_only_witness :
  (String.prefix "https://www" "https://www.fanfiction.net/s/7/1/Old" = true /\
   (String.length (Re.sub_story "https://www.fanfiction.net/s/7/1/Old")
    < String.length "https://www.fanfiction.net/s/7/1/Old")%nat) /\
  index_entry ∅ (page "http://www.fanfiction.net/s/7/1/Old" None "old")
  = <["http://www.fanfiction.net/s/7/1/Old"
       := page "http://www.fanfiction.net/s/7/1/Old" None "old"]> ∅.
Proof.
  split.
  - apply (proj1 (sub_story_changes_https_only
                    "https://www.fanfiction.net/s/7/1/Old")).
    vm_compute. congruence.
  - apply (proj2 (sub_story_changes_https_only
                    "http://www.fanfiction.net/s/7/1/Old"));
      reflexivity.
Defined.

Lemma shelf_after_new x k :
  k = "https://www.fanfiction.net/s/7/1/" ->
  x ∈ [Sample.headers_page; Sample.unreadable_page] ->
  contains "fanfiction.net" (CacheEntry.keyToStr x) = true ->
  CacheEntry.keyToStr x <> k /\ Re.sub_story (CacheEntry.keyToStr x) <> k.
Proof.
  intros -> Hx _.
  apply elem_of_cons in Hx as [->|Hx];
    [|apply elem_of_cons in Hx as [->|Hx]; [|by apply elem_of_nil in Hx]];
    split; vm_compute; congruence.
Qed.

Lemma index_keeps_last_entry_witness :
  build_hash_cache Sample.shelf_pages !! "https://www.fanfiction.net/s/7/1/"
  = Some Sample.new_page.
Proof.
  apply (index_keeps_last_entry [Sample.old_page] Sample.new_page
           [Sample.headers_page; Sample.unreadable_page]
           "https://www.fanfiction.net/s/7/1/").
  - reflexivity.
  - right. reflexivity.
  - intros x Hx Hc. by apply shelf_after_new.
Defined.

Lemma get_cached_file_without_body_witness :
  get_cached_file bad_gzip bad_brotli Sample.shelf
    "https://www.fanfiction.net/s/8/1/"
  = ([], inr None).
Proof.
  apply (get_cached_file_without_body bad_gzip bad_brotli Sample.shelf
           "https://www.fanfiction.net/s/8/1/" Sample.headers_page).
  - reflexivity.
  - repeat constructor. discriminate.
Defined.

Lemma get_cached_file_decodes_body_witness :
  get_cached_file Sample.gunzip Sample.unbrotli store
    "https://www.fanfiction.net/s/1/1/"
  = ([], inr (Some "plain not gzip")) /\
  get_cached_file Sample.gunzip Sample.unbrotli store
    "https://www.fanfiction.net/s/2/1/"
  = ([time_line], inr (Some "text not brotli")).
Proof.
  split.
  - apply (proj1 (get_cached_file_decodes_body Sample.gunzip Sample.unbrotli
             store "https://www.fanfiction.net/s/1/1/" gzip_page _
             "not gzip" "plain not gzip" eq_refl (page_body _ _ _)));
      reflexivity.
  - apply (proj2 (get_cached_file_decodes_body Sample.gunzip Sample.unbrotli
             store "https://www.fanfiction.net/s/2/1/" br_page _
             "not brotli" "text not brotli" eq_refl (page_body _ _ _)));
      reflexivity.
Defined.

Lemma get_cached_file_raises_on_unreadable_stream_witness :
  get_cached_file Sample.gunzip Sample.unbrotli Sample.shelf
    "https://www.fanfiction.net/s/9/1/U"
  = ([], inl io_error).
Proof.
  apply (get_cached_file_raises_on_unreadable_stream Sample.gunzip
           Sample.unbrotli Sample.shelf "https://www.fanfiction.net/s/9/1/U"
           Sample.unreadable_page
           [ {| CacheData.type := CacheData.HTTP_HEADER;
                CacheData.data := inr "HTTP/1.1 200 OK" |} ]
           {| CacheData.type := CacheData.UNKNOWN;
              CacheData.data := inl io_error |} [] io_error).
  - reflexivity.
  - reflexivity.
  - repeat constructor. discriminate.
  - reflexivity.
  - reflexivity.
Defined.

Lemma parse_urls_invariant_witness :
  Forall (fun e => exists url,
            url ∈ ["http://b/"; "http://a/"] /\
            CacheEntry.hash e = hash_of (utf8 url)) [e2] /\
  Forall (fun line => exists url,
            url ∈ ["http://b/"; "http://a/"] /\ line = utf8 url)
    ["http://a/"] /\
  (length [e2] + length ["http://a/"] <= 2)%nat.
Proof.
  apply (parse_urls_invariant INDEX hash_of scenario 1
           ["http://b/"; "http://a/"]
           {| cache := [e2]; stderr := ["http://a/"] |}).
  reflexivity.
Defined.

Lemma parse_rejects_other_files_witness :
  parse INDEX hash_of Sample.block_file 2 None = Raise (PyExn "Exception") /\
  ChromeCache.init INDEX hash_of Sample.block_file 2
  = Raise (PyExn "Exception").
Proof.
  apply (parse_rejects_other_files INDEX hash_of Sample.block_file 2 None).
  vm_compute. congruence.
Defined.

Lemma library_after_deflate x k :
  k = "https://www.fanfiction.net/s/3/1/" ->
  x ∈ [odd_page; other_page] ->
  contains "fanfiction.net" (CacheEntry.keyToStr x) = true ->
  CacheEntry.keyToStr x <> k /\ Re.sub_story (CacheEntry.keyToStr x) <> k.
Proof.
  intros -> Hx _.
  apply elem_of_cons in Hx as [->|Hx];
    [|apply elem_of_cons in Hx as [->|Hx]; [|by apply elem_of_nil in Hx]];
    split; vm_compute; congruence.
Qed.

Lemma cached_page_is_served_witness :
  exists self,
    ChromeCache.init INDEX hash_of library 0 = Ret self /\
    ChromeCache.cache self = pages /\
    get_cached_file bad_gzip bad_brotli self
      "https://www.fanfiction.net/s/3/1/"
    = ([], inr (Some "deflated")).
Proof.
  apply (cached_page_is_served INDEX hash_of library bad_gzip bad_brotli 0
           [0x90000001; 0; 0x90000002; 0x90000003; 0; 0x90000004;
            0x90000005; 0]
           [[gzip_page]; []; [br_page]; [deflate_page]; []; [odd_page];
            [other_page]; []]
           [gzip_page; br_page] deflate_page [odd_page; other_page]
           "https://www.fanfiction.net/s/3/1/"
           {| CacheData.type := CacheData.UNKNOWN;
              CacheData.data := inr "deflated" |} "deflated").
  - reflexivity.
  - reflexivity.
  - apply library_table.
  - apply library_buckets.
  - repeat constructor; simpl; lia.
  - reflexivity.
  - reflexivity.
  - right. reflexivity.
  - intros x Hx Hc. by apply library_after_deflate.
  - apply page_body.
  - vm_compute. congruence.
  - vm_compute. congruence.
Defined.

Lemma empty_table_witness :
  parse INDEX hash_of Sample.no_buckets 0 None
  = Ret {| cache := []; stderr := [] |} /\
  bucket_index 0x22 (tableSize Sample.no_buckets) = 0x22.
Proof.
  pose proof (empty_table INDEX hash_of Sample.no_buckets 0 eq_refl)
    as [H1 H2]; [simpl; lia|].
  split; [exact H1|]. by apply H2.
Defined.
